(** * WinMastersAI predictor proxy: cache, credential gate, upstream client

    A shallow embedding of the predictor proxy part of [server.js]
    (the in-memory TTL cache, [verifyJWT], [fetchPredictorMatch], the
    two [GET /api/predictions] registrations and the
    [GET /api/prediction/:matchId] handler), followed by the properties
    that the design document states about them.

    Conventions of the embedding.
    - JavaScript values that flow through the proxy are JSON values
      ([json]); JavaScript truthiness is [truthy].
    - [Date.now()] is an integer number of milliseconds ([Z]); the
      clock reading is passed to every function that reads it.
    - The module-level [cache] (a [Map]) is a [gmap string entry]
      threaded through every function that reads or writes it.
    - The network, [jwt.verify] and [Date.prototype.toISOString] are
      not part of the program: they are fields of a [world] record. *)

From Stdlib Require Import ZArith QArith Ascii String List Lia DecimalString DecimalZ.
From stdpp Require Import base option list strings gmap fin_maps sorting.

Local Open Scope string_scope.
Local Open Scope Z_scope.

Set Warnings "-register-all".

(** ** JavaScript values *)

Module JS.

(** A JSON value, as produced by [resp.json()] or [jwt.verify] and as
    given to [res.json]. *)
Inductive json : Type :=
| JNull
| JBool (b : bool)
| JNum (q : Q)
| JStr (s : string)
| JArr (items : list json)
| JObj (fields : list (string * json)).

(** [!!v]: [null], [false], [0] and the empty string are falsy, every
    array and object is truthy. *)
Definition truthy (v : json) : bool :=
  match v with
  | JNull => false
  | JBool b => b
  | JNum q => negb (Qnum q =? 0)%Z
  | JStr s => negb (String.eqb s "")
  | JArr _ => true
  | JObj _ => true
  end.

(** [v !== null] *)
Definition not_null (v : json) : bool :=
  match v with JNull => false | _ => true end.

Fixpoint assoc (k : string) (fs : list (string * json)) : option json :=
  match fs with
  | [] => None
  | (k', v) :: fs' => if String.eqb k k' then Some v else assoc k fs'
  end.

(** [v.name]: [None] is [undefined] (a missing property, or a property
    read on a primitive). *)
Definition prop (v : json) (name : string) : option json :=
  match v with
  | JObj fs => assoc name fs
  | _ => None
  end.

(** Truthiness of a possibly [undefined] value. *)
Definition truthy_opt (o : option json) : bool :=
  match o with Some v => truthy v | None => false end.

(** [s || d] on a possibly missing string: the empty string is falsy. *)
Definition str_or (o : option string) (d : string) : string :=
  match o with
  | Some s => if String.eqb s "" then d else s
  | None => d
  end.

End JS.
Export JS.

(** ** Cache store (server.js, lines 138-151) *)

(** [{ ts, ttlSec, value }] *)
Record entry : Type := Entry { ts : Z; ttlSec : Z; value : json }.

(** [(Date.now() - entry.ts) / 1000 > entry.ttlSec].  Both sides are
    integers here (milliseconds and whole seconds), so the division by
    1000 is cleared by multiplying the right-hand side. *)
Definition expired (now : Z) (e : entry) : bool :=
  1000 * ttlSec e <? now - ts e.

(** [function setCache(key, value, ttlSec = 30)]: the third argument is
    optional and defaults to 30. [now] is the [Date.now()] of the call. *)
Definition setCache (key : string) (v : json) (ttl : option Z) (now : Z)
    (c : gmap string entry) : gmap string entry :=
  <[key := {| ts := now; ttlSec := default 30 ttl; value := v |}]> c.

(** [function getCache(key)]: the returned value ([null] when absent or
    expired) and the store afterwards. *)
Definition getCache (key : string) (now : Z) (c : gmap string entry)
    : json * gmap string entry :=
  match c !! key with
  | None => (JNull, c)
  | Some e =>
      if expired now e then (JNull, delete key c)
      else (value e, c)
  end.

(** An entry is readable at [now] when the lookup hands out its value and
    keeps it in the store. *)
Definition readable (key : string) (now : Z) (c : gmap string entry) : Prop :=
  ∃ e, c !! key = Some e ∧ getCache key now c = (value e, c).

(** ** String helpers of the JavaScript runtime *)

Module Str.

(** [String.prototype.toLowerCase], on the ASCII letters.  No character
    outside ASCII lower-cases to an ASCII letter, so comparing the result
    with an ASCII literal is exact. *)
Definition lower (a : ascii) : ascii :=
  let n := nat_of_ascii a in
  if ((65 <=? n) && (n <=? 90))%nat then ascii_of_nat (n + 32) else a.

Fixpoint toLowerCase (s : string) : string :=
  match s with
  | EmptyString => EmptyString
  | String a r => String (lower a) (toLowerCase r)
  end.

(** The class [\s] of a regular expression, on a text whose characters
    are the code points below 256. That is what a header value is: Node
    delivers every byte of a header as one character. In that range the
    class holds tab, line feed, vertical tab, form feed, carriage return,
    space and the no-break space U+00A0. *)
Definition is_space (a : ascii) : bool :=
  let n := nat_of_ascii a in
  (((9 <=? n) && (n <=? 13)) || (n =? 32) || (n =? 160))%nat.

Fixpoint drop_spaces (s : string) : string :=
  match s with
  | String a r => if is_space a then drop_spaces r else s
  | EmptyString => EmptyString
  end.

Fixpoint take (n : nat) (s : string) : string :=
  match n, s with
  | S n', String a r => String a (take n' r)
  | _, _ => EmptyString
  end.

Fixpoint drop (n : nat) (s : string) : string :=
  match n, s with
  | S n', String _ r => drop n' r
  | _, _ => s
  end.

(** [token.replace(/^Bearer\s+/i, '')]: when the text starts with the
    word (in any case) followed by at least one white-space character,
    the word and the whole run of white space are removed; otherwise the
    text is returned as it is. *)
Definition strip_bearer (s : string) : string :=
  if String.eqb (toLowerCase (take 6 s)) "bearer" then
    match drop 6 s with
    | String a r => if is_space a then drop_spaces r else s
    | EmptyString => s
    end
  else s.

(** [s.replace(/\/$/, '')]: one trailing slash is removed. *)
Fixpoint strip_trailing_slash (s : string) : string :=
  match s with
  | EmptyString => EmptyString
  | String a EmptyString => if Ascii.eqb a "/" then EmptyString else s
  | String a r => String a (strip_trailing_slash r)
  end.

Definition hex_digit (n : nat) : ascii :=
  ascii_of_nat (if (n <? 10)%nat then 48 + n else 55 + n).

(** The characters [encodeURIComponent] leaves alone:
    [A-Z a-z 0-9 - _ . ! ~ * ' ( )]. *)
Definition uri_unreserved (a : ascii) : bool :=
  let n := nat_of_ascii a in
  (((65 <=? n) && (n <=? 90)) || ((97 <=? n) && (n <=? 122))
   || ((48 <=? n) && (n <=? 57))
   || (n =? 45) || (n =? 95) || (n =? 46) || (n =? 33) || (n =? 126)
   || (n =? 42) || (n =? 39) || (n =? 40) || (n =? 41))%nat.

(** [encodeURIComponent], on the UTF-8 bytes of the text: every byte
    that is not unreserved becomes [%XX]. *)
Fixpoint encodeURIComponent (s : string) : string :=
  match s with
  | EmptyString => EmptyString
  | String a r =>
      if uri_unreserved a then String a (encodeURIComponent r)
      else
        let n := nat_of_ascii a in
        String "%" (String (hex_digit (n / 16)) (String (hex_digit (n mod 16))
          (encodeURIComponent r)))
  end.

(** [s.split(sep)] for a one-character separator: never empty. *)
Fixpoint split (sep : ascii) (s : string) : list string :=
  match s with
  | EmptyString => [EmptyString]
  | String a r =>
      if Ascii.eqb a sep then EmptyString :: split sep r
      else match split sep r with
           | h :: t => String a h :: t
           | [] => [String a EmptyString]
           end
  end.

End Str.

(** ** Configuration (server.js, lines 134-136 and 157) *)

Record config : Type := Config {
  PREDICTOR_URL : string;
  PREDICTOR_API_KEY : string;
  PREDICTOR_MATCH_IDS : list string;
  JWT_SECRET : string
}.

(** [process.env.X || default] for each setting. *)
Definition config_of_env (env : gmap string string) : config :=
  {| PREDICTOR_URL := str_or (env !! "PREDICTOR_URL") "http://localhost:5000";
     PREDICTOR_API_KEY := str_or (env !! "PREDICTOR_API_KEY") "";
     PREDICTOR_MATCH_IDS :=
       Str.split ","
         (str_or (env !! "PREDICTOR_MATCH_IDS") "m_20251115_001,m_20251115_002");
     JWT_SECRET := str_or (env !! "JWT_SECRET") "dev-secret" |}.

(** ** The outside world *)

(** What is passed to [fetch]: [url.toString()] and the [headers]
    object. *)
Record request : Type := Request {
  url : string;
  headers : gmap string string
}.

(** How the body of a response behaves once its head has arrived:
    [resp.json()] resolves [d] ms later with the parsed value, rejects
    [d] ms later because the text is not JSON, or never settles because
    the stream never ends. *)
Inductive body_event : Type :=
| BodyJson (d : Z) (j : json)
| BodyInvalid (d : Z)
| BodyStalled.

(** How the upstream answers one request: the connection fails after
    [d] ms, the response head (status line and headers) arrives after
    [d] ms, or nothing ever comes back. *)
Inductive fetch_event : Type :=
| NetError (d : Z)
| Head (d : Z) (status : Z) (b : body_event)
| Silent.

Record world : Type := World {
  (** [jwt.verify(token, secret)]: the decoded payload, [None] when it
      throws. *)
  jwt_verify : string → string → option json;
  (** the upstream's answer to a request issued at a given time *)
  net : Z → request → fetch_event;
  (** [new Date(t).toISOString()] *)
  toISOString : Z → string
}.

(** ** Credential verifier (server.js, lines 154-162) *)

(** [function verifyJWT(token)]: [null] for an empty header value and
    when [jwt.verify] throws, the decoded payload otherwise. *)
Definition verifyJWT (w : world) (cfg : config) (token : string) : json :=
  if String.eqb token "" then JNull
  else
    match jwt_verify w (Str.strip_bearer token) (JWT_SECRET cfg) with
    | Some payload => payload
    | None => JNull
    end.

(** ** Upstream client (server.js, lines 165-197) *)

(** [`predictor:${matchId}:detail=${detail}`] *)
Definition cacheKey (matchId : string) (detail : bool) : string :=
  "predictor:" +:+ matchId +:+ ":detail=" +:+ (if detail then "true" else "false").

(** Lines 171-172: the address of the match, with [detail=true] in the
    query when asked for. The text is the one given to [new URL], for a
    [PREDICTOR_URL] and an identifier that [new URL] leaves as they are
    written: a base in its normal form, and an identifier other than the
    dot segments [.] and [..], which the parser removes from the path. *)
Definition build_url (cfg : config) (matchId : string) (detail : bool) : string :=
  Str.strip_trailing_slash (PREDICTOR_URL cfg) +:+ "/predict/"
    +:+ Str.encodeURIComponent matchId
    +:+ (if detail then "?detail=true" else "").

(** Lines 174-176: [Accept] always, [x-api-key] when forwarding is asked
    for and a key is configured (the empty string is falsy). *)
Definition build_headers (cfg : config) (forwardApiKey : bool) : gmap string string :=
  let headers : gmap string string := {[ "Accept" := "application/json" ]} in
  if forwardApiKey && negb (String.eqb (PREDICTOR_API_KEY cfg) "")
  then <["x-api-key" := PREDICTOR_API_KEY cfg]> headers
  else headers.

Definition build_request (cfg : config) (matchId : string) (detail forwardApiKey : bool)
    : request :=
  {| url := build_url cfg matchId detail;
     headers := build_headers cfg forwardApiKey |}.

(** The delay of [setTimeout(() => controller.abort(), 5000)]. *)
Definition TIMEOUT_MS : Z := 5000.

(** The cache lifetime given at line 190. *)
Definition PREDICTOR_TTL : Z := 20.

(** [resp.ok]: a status in the range 200-299. *)
Definition resp_ok (status : Z) : bool := (200 <=? status) && (status <=? 299).

(** What can be thrown inside the [try] block. *)
Inductive exn : Type := AbortError | FetchError | InvalidJson.

(** How a promise ends: it settles with a value, at the given time (a
    delay in [await_json] and [try_block], a clock reading in the results
    of calls and handlers), or it stays pending for ever. *)
Inductive settle (A : Type) : Type :=
| At (t : Z) (a : A)
| Never.
Arguments At {A} t a.
Arguments Never {A}.

(** [await fetch(url, { headers, signal })] with the abort timer armed:
    whatever the upstream does before the timer fires is seen; from
    [TIMEOUT_MS] on the pending request is aborted and the promise
    rejects. *)
Definition await_fetch (ev : fetch_event) : Z * (exn + Z * body_event) :=
  match ev with
  | NetError d =>
      if d <? TIMEOUT_MS then (d, inl FetchError) else (TIMEOUT_MS, inl AbortError)
  | Head d status b =>
      if d <? TIMEOUT_MS then (d, inr (status, b)) else (TIMEOUT_MS, inl AbortError)
  | Silent => (TIMEOUT_MS, inl AbortError)
  end.

(** [await resp.json()], after [clearTimeout(id)] at line 183: nothing
    aborts the request any more. *)
Definition await_json (b : body_event) : settle (exn + json) :=
  match b with
  | BodyJson d j => At d (inr j)
  | BodyInvalid d => At d (inl InvalidJson)
  | BodyStalled => Never
  end.

(** The [try] block, lines 182-191: an exception, [return null] for a
    status that is not ok ([inr None]), or the parsed payload on its way
    to [setCache] and [return json] ([inr (Some json)]). *)
Definition try_block (ev : fetch_event) : settle (exn + option json) :=
  match await_fetch ev with
  | (d, inl e) => At d (inl e)
  | (d, inr (status, b)) =>
      if negb (resp_ok status) then At d (inr None)
      else
        match await_json b with
        | At d2 (inl e) => At (d + d2) (inl e)
        | At d2 (inr j) => At (d + d2) (inr (Some j))
        | Never => Never
        end
  end.

(** The synchronous part of a call, lines 166-176: the cache lookup, and
    on a miss the request that is handed to [fetch]. *)
Inductive call : Type :=
| Hit (cached : json)
| Miss (key : string) (req : request).

Definition fetch_start (cfg : config) (matchId : string) (detail forwardApiKey : bool)
    (now : Z) (c : gmap string entry) : call * gmap string entry :=
  let key := cacheKey matchId detail in
  let '(cached, c1) := getCache key now c in
  if truthy cached then (Hit cached, c1)
  else (Miss key (build_request cfg matchId detail forwardApiKey), c1).

(** How a call ends: when, with which value, and with which cache write
    (the key and payload of [setCache(cacheKey, json, 20)]). *)
Record settled : Type := Settled {
  s_at : Z;
  s_value : json;
  s_write : option (string * json)
}.

(** The asynchronous part of a call started at [now], with the [catch]
    block of lines 192-196 turning every exception into [null]; [None]
    when the promise never settles. *)
Definition fetch_settle (w : world) (now : Z) (cl : call) : option settled :=
  match cl with
  | Hit cached => Some (Settled now cached None)
  | Miss key req =>
      match try_block (net w now req) with
      | At d (inl _) => Some (Settled (now + d) JNull None)
      | At d (inr None) => Some (Settled (now + d) JNull None)
      | At d (inr (Some j)) => Some (Settled (now + d) j (Some (key, j)))
      | Never => None
      end
  end.

(** The cache write of a settled call, stamped with the time at which
    the call settled. *)
Definition commit (s : settled) (c : gmap string entry) : gmap string entry :=
  match s_write s with
  | Some (key, j) => setCache key j (Some PREDICTOR_TTL) (s_at s) c
  | None => c
  end.

Definition sent_by (cl : call) : list request :=
  match cl with
  | Hit _ => []
  | Miss _ req => [req]
  end.

(** What a call leaves behind: the value its promise resolves with and
    the time at which it does, the cache, and the requests that went
    out. *)
Record fetched : Type := Fetched {
  f_value : settle json;
  f_cache : gmap string entry;
  f_sent : list request
}.

(** [async function fetchPredictorMatch(matchId, detail=false,
    forwardApiKey=false)], called at time [now] on the cache [c]. *)
Definition fetchPredictorMatch (cfg : config) (w : world)
    (matchId : string) (detail forwardApiKey : bool)
    (now : Z) (c : gmap string entry) : fetched :=
  let '(cl, c1) := fetch_start cfg matchId detail forwardApiKey now c in
  match fetch_settle w now cl with
  | Some s => Fetched (At (s_at s) (s_value s)) (commit s c1) (sent_by cl)
  | None => Fetched Never c1 (sent_by cl)
  end.

(** ** Request handlers *)

Record response : Type := Response { status : Z; body : json }.

(** What a handler leaves behind: the response and the time at which it
    is sent ([Never] when no response is ever sent), the cache, and the
    requests that went to the upstream. *)
Record reply : Type := Reply {
  r_response : settle response;
  r_cache : gmap string entry;
  r_sent : list request
}.

(** *** First registration of [GET /api/predictions] (lines 28-37) *)

Definition sample (now : string) : json :=
  JArr [
    JObj [("id", JNum 1); ("match", JStr "Switzerland vs Sweden"); ("date", JStr now);
          ("pick", JStr "Switzerland to win"); ("market", JStr "1");
          ("rationale", JStr "Home advantage"); ("confidence", JNum 52)];
    JObj [("id", JNum 2); ("match", JStr "Georgia vs Spain"); ("date", JStr now);
          ("pick", JStr "Over 2.5"); ("market", JStr "Over 2.5");
          ("rationale", JStr "Spain attack"); ("confidence", JNum 65)];
    JObj [("id", JNum 3); ("match", JStr "Belgium vs Kazakhstan"); ("date", JStr now);
          ("pick", JStr "Belgium -1"); ("market", JStr "AH -1");
          ("rationale", JStr "Strong away side"); ("confidence", JNum 70)]
  ].

Definition handle_sample (w : world) (now : Z) (c : gmap string entry) : reply :=
  Reply (At now (Response 200 (sample (Str.take 10 (toISOString w now))))) c [].

(** *** Second registration of [GET /api/predictions] (lines 204-223) *)

(** [matchIds.map(id => fetchPredictorMatch(id, false, false))]: every
    call runs up to its first [await] before the next one starts, so the
    cache lookups happen in order, before any response arrives. *)
Fixpoint start_all (cfg : config) (ids : list string) (now : Z)
    (c : gmap string entry) : list call * gmap string entry :=
  match ids with
  | [] => ([], c)
  | id :: rest =>
      let '(cl, c1) := fetch_start cfg id false false now c in
      let '(cls, c2) := start_all cfg rest now c1 in
      (cl :: cls, c2)
  end.

(** The calls settle in the order of their completion times; calls that
    settle in the same millisecond keep the order in which they were
    started. *)
Fixpoint insert_by_time (s : settled) (l : list settled) : list settled :=
  match l with
  | [] => [s]
  | x :: r => if s_at s <=? s_at x then s :: l else x :: insert_by_time s r
  end.

Definition by_time (l : list settled) : list settled := foldr insert_by_time [] l.

Definition commit_all (l : list settled) (c : gmap string entry) : gmap string entry :=
  foldl (λ c s, commit s c) c l.

(** The literal of lines 213-216; both dates are [new Date().toISOString()]. *)
Definition fallback (now : string) : json :=
  JArr [
    JObj [("id", JNum 1); ("match", JStr "Demo: Switzerland vs Sweden");
          ("pick", JStr "Switzerland to win"); ("date", JStr now);
          ("confidence", JNum 0.52)];
    JObj [("id", JNum 2); ("match", JStr "Demo: Georgia vs Spain");
          ("pick", JStr "Over 2.5"); ("date", JStr now);
          ("confidence", JNum 0.65)]
  ].

(** [await Promise.all(calls)] resolves when the last call has settled,
    with the values in the order of the calls; it stays pending when one
    of them does. [fetchPredictorMatch] catches what its request throws,
    so with a well-formed [PREDICTOR_URL] nothing reaches the [catch] of
    lines 219-222. *)
Definition handle_predictions (cfg : config) (w : world) (now : Z)
    (c : gmap string entry) : reply :=
  let '(calls, c1) := start_all cfg (PREDICTOR_MATCH_IDS cfg) now c in
  let outs := map (fetch_settle w now) calls in
  let c2 := commit_all (by_time (omap id outs)) c1 in
  let sent := concat (map sent_by calls) in
  match mapM id outs with
  | None => Reply Never c2 sent
  | Some results =>
      let t := foldr Z.max now (map s_at results) in
      let cleaned := List.filter not_null (map s_value results) in
      if (length cleaned =? 0)%nat
      then Reply (At t (Response 200 (fallback (toISOString w t)))) c2 sent
      else Reply (At t (Response 200 (JArr cleaned))) c2 sent
  end.

(** *** [GET /api/prediction/:matchId] (lines 231-260) *)

(** [(req.query.detail || 'false').toLowerCase() === 'true'] *)
Definition detail_flag (q_detail : option string) : bool :=
  String.eqb (Str.toLowerCase (str_or q_detail "false")) "true".

Definition UNAUTHORIZED : response :=
  Response 401 (JObj [("error", JStr "Missing or invalid token for detailed analysis")]).

Definition TEASER : response :=
  Response 403
    (JObj [("teaser", JStr "Full analysis available for VIPs. Start a trial for R199/month.")]).

Definition UNAVAILABLE : response :=
  Response 502 (JObj [("error", JStr "Prediction service unavailable")]).

(** Lines 251-255: the upstream call and the response made from it. *)
Definition respond_with (f : fetched) : reply :=
  Reply
    match f_value f with
    | At t predictorResp =>
        if negb (truthy predictorResp) then At t UNAVAILABLE
        else At t (Response 200 predictorResp)
    | Never => Never
    end
    (f_cache f) (f_sent f).

(** The [try] block of the handler, lines 233-255, on a [detail]
    parameter that is absent or a text. With a well-formed
    [PREDICTOR_URL] no statement of it throws then. *)
Definition handle_prediction (cfg : config) (w : world)
    (matchId : string) (q_detail authorization : option string)
    (now : Z) (c : gmap string entry) : reply :=
  let detail := detail_flag q_detail in
  if detail then
    let authHeader := str_or authorization "" in
    let payload := verifyJWT w cfg authHeader in
    if negb (truthy payload) then Reply (At now UNAUTHORIZED) c []
    else if negb (truthy_opt (prop payload "subscribed")) then Reply (At now TEASER) c []
    else respond_with (fetchPredictorMatch cfg w matchId detail true now c)
  else respond_with (fetchPredictorMatch cfg w matchId detail false now c).

(** What [req.query.detail] can be: absent, a text, or what the query
    parser makes of a repeated or bracketed parameter, an array or an
    object. [(req.query.detail || 'false')] is the text that
    [toLowerCase] is called on: the default for an absent or falsy
    value, the value itself when it is a text; [None] when the value is
    truthy and not a text, where the call throws a TypeError. *)
Definition detail_text (q : option json) : option (option string) :=
  match q with
  | None => Some None
  | Some (JStr s) => Some (Some s)
  | Some v => if truthy v then None else Some None
  end.

Definition SERVER_ERROR : response :=
  Response 500 (JObj [("error", JStr "Server error")]).

(** [app.get('/api/prediction/:matchId', ...)] whole, lines 231-260:
    the [try] block, and the [catch] of lines 256-259 for the TypeError
    of line 234. *)
Definition prediction_route (cfg : config) (w : world)
    (matchId : string) (q_detail : option json) (authorization : option string)
    (now : Z) (c : gmap string entry) : reply :=
  match detail_text q_detail with
  | Some text => handle_prediction cfg w matchId text authorization now c
  | None => Reply (At now SERVER_ERROR) c []
  end.

(** ** Routing *)

(** An incoming [GET]: the segments of the path as they are received,
    the [detail] query parameter and the [Authorization] header, each
    absent or a text. The router decodes the percent escapes of a
    parameter before the handler sees it; a segment without escapes
    ([plain_segment] below) is handed over as it is. *)
Record http_get : Type := HttpGet {
  path : list string;
  query_detail : option string;
  authorization : option string
}.

Inductive segment : Type := Lit (s : string) | Param.

Inductive handler : Type :=
| SamplePredictions
| AggregatedPredictions
| SinglePrediction.

(** The [app.get] registrations of the file, in the order in which they
    are made (lines 28, 204 and 231). The [app.post] registrations never
    match a [GET]. *)
Definition routes : list (list segment * handler) :=
  [ ([Lit "api"; Lit "predictions"], SamplePredictions);
    ([Lit "api"; Lit "predictions"], AggregatedPredictions);
    ([Lit "api"; Lit "prediction"; Param], SinglePrediction) ].

(** The parameters bound by a pattern on a path, [None] when the path
    does not match. As the router is set up by default, literal segments
    match whatever the case of their letters, a parameter matches a
    segment that is not empty, and one slash at the end of the path (an
    empty last segment) is allowed. *)
Fixpoint match_path (pat : list segment) (p : list string) : option (list string) :=
  match pat, p with
  | [], [] => Some []
  | [], [x] => if String.eqb x "" then Some [] else None
  | Lit s :: pat', x :: p' =>
      if String.eqb s (Str.toLowerCase x) then match_path pat' p' else None
  | Param :: pat', x :: p' =>
      if String.eqb x "" then None else cons x <$> match_path pat' p'
  | _, _ => None
  end.

(** The router runs the first registered handler whose path matches; a
    handler that responds without calling [next] ends the dispatch. *)
Fixpoint dispatch (rs : list (list segment * handler)) (p : list string)
    : option (handler * list string) :=
  match rs with
  | [] => None
  | (pat, h) :: rs' =>
      match match_path pat p with
      | Some params => Some (h, params)
      | None => dispatch rs' p
      end
  end.

(** The application on one [GET]; [None] when no route of this file
    matches. *)
Definition serve (cfg : config) (w : world) (req : http_get)
    (now : Z) (c : gmap string entry) : option reply :=
  match dispatch routes (path req) with
  | Some (SamplePredictions, _) => Some (handle_sample w now c)
  | Some (AggregatedPredictions, _) => Some (handle_predictions cfg w now c)
  | Some (SinglePrediction, [matchId]) =>
      Some (handle_prediction cfg w matchId (query_detail req) (authorization req) now c)
  | _ => None
  end.

(** ** Vocabulary of the properties *)

(** The ways in which an upstream call fails: a status that is not a
    success, a transport error, a body that is not JSON, and an upstream
    that stays silent (the abort of the timer is a transport error too). *)
Inductive upstream_failure : fetch_event → Prop :=
| failure_status d status b :
    resp_ok status = false → upstream_failure (Head d status b)
| failure_transport d : upstream_failure (NetError d)
| failure_decode d status d2 : upstream_failure (Head d status (BodyInvalid d2))
| failure_silent : upstream_failure Silent.

(** The upstream fetch succeeds with payload [j], [d] ms after the
    request: a head with a success status before the timer fires, then a
    body that parses. *)
Definition upstream_success (ev : fetch_event) (d : Z) (j : json) : Prop :=
  ∃ d1 status d2,
    ev = Head d1 status (BodyJson d2 j) ∧ d1 < TIMEOUT_MS
    ∧ resp_ok status = true ∧ d = d1 + d2.

(** A text equal to ["true"] up to the case of its letters. *)
Definition is_true_ci (s : string) : Prop :=
  ∃ a b c d : ascii,
    s = String a (String b (String c (String d EmptyString)))
    ∧ (a = "t" ∨ a = "T")%char ∧ (b = "r" ∨ b = "R")%char
    ∧ (c = "u" ∨ c = "U")%char ∧ (d = "e" ∨ d = "E")%char.

(** A text equal to ["bearer"] up to the case of its letters. *)
Definition is_bearer_ci (s : string) : Prop :=
  String.length s = 6%nat ∧ Str.toLowerCase s = "bearer".

(** Every character of the text is white space. *)
Fixpoint all_space (s : string) : bool :=
  match s with
  | EmptyString => true
  | String a r => Str.is_space a && all_space r
  end.


(** ** Scenarios *)

Module Scenario.

(** No environment variable is set. *)
Definition cfg0 : config := config_of_env ∅.

(** The match list of the end-to-end scenarios. *)
Definition cfg12 : config :=
  config_of_env {[ "PREDICTOR_MATCH_IDS" := "m1,m2" ]}.

(** A privileged key is configured. *)
Definition cfg_key : config :=
  config_of_env {[ "PREDICTOR_API_KEY" := "k3y" ]}.

Definition iso0 (t : Z) : string := "2025-11-15T12:00:00.000Z".

Definition pick_home : json := JObj [("pick", JStr "Home")].

(** The only credentials that verify: ["vip"] (subscribed) and ["free"]
    (not subscribed). *)
Definition jwt0 (token secret : string) : option json :=
  if String.eqb token "vip" then Some (JObj [("subscribed", JBool true)])
  else if String.eqb token "free" then Some (JObj [("subscribed", JBool false)])
  else None.

(** The upstream is unreachable: every connection fails after 3 ms. *)
Definition w_down : world := World jwt0 (λ _ _, NetError 3) iso0.

(** The upstream sends a success head after 10 ms and never finishes the
    body. *)
Definition w_stall : world := World jwt0 (λ _ _, Head 10 200 BodyStalled) iso0.

(** The upstream never answers. *)
Definition w_silent : world := World jwt0 (λ _ _, Silent) iso0.

(** The upstream answers every request after 40 + 2 ms with
    [{pick:"Home"}]. *)
Definition w_up : world := World jwt0 (λ _ _, Head 40 200 (BodyJson 2 pick_home)) iso0.

(** Scenario 1: [m1] is answered with [{pick:"Home"}], [m2] never. *)
Definition w_m1 : world :=
  World jwt0
    (λ _ req,
       if String.eqb (url req) "http://localhost:5000/predict/m1"
       then Head 40 200 (BodyJson 2 pick_home)
       else Silent)
    iso0.

(** An entry of the summary of match [A], stored at time 0. *)
Definition stale : gmap string entry :=
  {[ cacheKey "A" false := Entry 0 20 (JStr "old") ]}.

Definition get_predictions : http_get := HttpGet ["api"; "predictions"] None None.

End Scenario.

(** ** PayFast checkout (server.js, lines 46-95) *)

(** [Array.prototype.join]: the texts with the separator between them. *)
Fixpoint array_join (sep : string) (l : list string) : string :=
  match l with
  | [] => EmptyString
  | [x] => x
  | x :: rest => x +:+ sep +:+ array_join sep rest
  end.

(** [dataObj[k]] on an object given as the list of its fields (distinct
    names, in insertion order); a missing property reads as
    [undefined], which [encodeURIComponent] turns into the text
    ["undefined"]. *)
Fixpoint get_field (k : string) (fields : list (string * string)) : option string :=
  match fields with
  | [] => None
  | (k', v) :: rest => if String.eqb k k' then Some v else get_field k rest
  end.

(** [function createPayfastSignature(dataObj)]: the names sorted, each
    mapped to [name=encodeURIComponent(value)], joined with [&]. Names
    and values are well-formed texts, given by their UTF-8 bytes (on a
    text with a lone surrogate [encodeURIComponent] throws). The names
    are compared byte by byte, which is the default order of [sort] on
    names made of ASCII characters. *)
Definition createPayfastSignature (dataObj : list (string * string)) : string :=
  array_join "&"
    (map (λ k, k +:+ "=" +:+ Str.encodeURIComponent (default "undefined" (get_field k dataObj)))
       (merge_sort String.le (map fst dataObj))).

(** [`${n}`] for an integer. *)
Definition string_of_Z (n : Z) : string :=
  DecimalString.NilEmpty.string_of_int (Z.to_int n).

(** [process.env.PORT || 3000], as it prints. *)
Definition PORT (env : gmap string string) : string :=
  str_or (env !! "PORT") "3000".

(** [process.env.PUBLIC_URL || 'http://localhost:' + PORT] *)
Definition public_url (env : gmap string string) : string :=
  str_or (env !! "PUBLIC_URL") ("http://localhost:" +:+ PORT env).

(** The object [data] of lines 75-85, fields in the order of the
    literal. *)
Definition payfast_data (env : gmap string string) (now : Z)
    (merchant_id merchant_key email plan : string) : list (string * string) :=
  let mPaymentId := "wp_" +:+ string_of_Z now in
  let amount := if String.eqb plan "vip" then "199.00" else "0.00" in
  let item_name :=
    if String.eqb plan "vip" then "WinnersPro VIP monthly" else "WinnersPro Free" in
  let notify_url := public_url env +:+ "/api/payfast-webhook" in
  let return_url := public_url env +:+ "/thank-you" in
  let cancel_url := public_url env +:+ "/cancel" in
  [ ("merchant_id", merchant_id);
    ("merchant_key", merchant_key);
    ("return_url", return_url);
    ("cancel_url", cancel_url);
    ("notify_url", notify_url);
    ("m_payment_id", mPaymentId);
    ("amount", amount);
    ("item_name", item_name);
    ("email_address", email) ].

(** ** More vocabulary *)

(** The value of a hexadecimal digit. *)
Definition hex_value (a : ascii) : nat :=
  let n := nat_of_ascii a in
  if (n <? 58)%nat then (n - 48)%nat else (n - 55)%nat.

(** Reading [%XX] back as one byte and every other character as
    itself: what undoes [encodeURIComponent]. *)
Fixpoint percent_decode (s : string) : string :=
  match s with
  | EmptyString => EmptyString
  | String a r =>
      if Ascii.eqb a "%" then
        match r with
        | String h (String l r') =>
            String (ascii_of_nat (16 * hex_value h + hex_value l)) (percent_decode r')
        | _ => String a (percent_decode r)
        end
      else String a (percent_decode r)
  end.

(** The characters of a text, as a list. *)
Definition chars (s : string) : list ascii := list_ascii_of_string s.

(** The characters that [encodeURIComponent] can produce: the unreserved
    ones, the percent sign and the sixteen upper-case hexadecimal
    digits. *)
Definition uri_safe (a : ascii) : bool :=
  Str.uri_unreserved a || Ascii.eqb a "%".

(** Every entry was written by the upstream client: its lifetime is
    [PREDICTOR_TTL] and its key is the key of some query. *)
Definition cache_wf (c : gmap string entry) : Prop :=
  ∀ k e, c !! k = Some e →
    ttlSec e = PREDICTOR_TTL ∧ ∃ matchId detail, k = cacheKey matchId detail.

(** A text made of ASCII characters only. *)
Definition ascii_text (s : string) : bool :=
  forallb (λ a, (nat_of_ascii a <? 128)%nat) (chars s).

(** Well-formed UTF-8: the byte sequences that are the encoding of a
    text without lone surrogates, the texts on which
    [encodeURIComponent] does not throw. *)
Definition in_range (lo hi n : nat) : bool := ((lo <=? n) && (n <=? hi))%nat.

Fixpoint utf8_valid (l : list nat) : bool :=
  match l with
  | [] => true
  | a :: l1 =>
      if (a <? 128)%nat then utf8_valid l1 else
      match l1 with
      | [] => false
      | b :: l2 =>
          if in_range 194 223 a then in_range 128 191 b && utf8_valid l2 else
          match l2 with
          | [] => false
          | c :: l3 =>
              if in_range 224 239 a then
                in_range (if (a =? 224)%nat then 160 else 128)%nat
                         (if (a =? 237)%nat then 159 else 191)%nat b
                && in_range 128 191 c && utf8_valid l3
              else
                match l3 with
                | [] => false
                | d :: l4 =>
                    in_range 240 244 a
                    && in_range (if (a =? 240)%nat then 144 else 128)%nat
                                (if (a =? 244)%nat then 143 else 191)%nat b
                    && in_range 128 191 c && in_range 128 191 d && utf8_valid l4
                end
          end
      end
  end.

Definition well_formed_text (s : string) : bool :=
  utf8_valid (map nat_of_ascii (chars s)).

(** A segment of a path that holds nothing to decode: visible ASCII
    characters only, no percent sign, and none of the characters that
    end a segment or the path. *)
Definition plain_segment (s : string) : bool :=
  forallb (λ a, (32 <? nat_of_ascii a)%nat && (nat_of_ascii a <? 127)%nat
                && negb (existsb (Ascii.eqb a) ["/"; "?"; "#"; "%"]%char))
    (chars s).

(** The cache write of a settled call, if any, goes under the key of
    some query. *)
Definition write_ok (s : settled) : Prop :=
  ∀ k j, s_write s = Some (k, j) → ∃ matchId detail, k = cacheKey matchId detail.

(** The entry under the key of a query is present, not expired at [now]
    and holds a truthy value. *)
Definition warm (matchId : string) (detail : bool) (now : Z)
    (c : gmap string entry) : Prop :=
  ∃ e, c !! cacheKey matchId detail = Some e
       ∧ expired now e = false ∧ truthy (value e) = true.

(** ** More scenarios *)

Module Scenario2.

(** The upstream answers every request after 40 + 2 ms with the JSON
    value [null]. *)
Definition w_null : world :=
  World Scenario.jwt0 (λ _ _, Head 40 200 (BodyJson 2 JNull)) Scenario.iso0.

(** The upstream answers every request after 7 ms with status 503. *)
Definition w_503 : world :=
  World Scenario.jwt0 (λ _ _, Head 7 503 BodyStalled) Scenario.iso0.

(** The summaries of [m1] and [m2], stored at time 0. *)
Definition both_cached : gmap string entry :=
  {[ cacheKey "m1" false := Entry 0 20 (JStr "one");
     cacheKey "m2" false := Entry 0 20 (JStr "two") ]}.


End Scenario2.

(** * Properties *)

Section CacheStore.
Implicit Types (k : string) (v : json) (t now : Z) (c : gmap string entry).

Lemma getCache_fresh k now c e :
  c !! k = Some e → expired now e = false →
  getCache k now c = (value e, c).
Proof. intros Hk He. unfold getCache. by rewrite Hk, He. Qed.

Lemma getCache_stale k now c e :
  c !! k = Some e → expired now e = true →
  getCache k now c = (JNull, delete k c).
Proof. intros Hk He. unfold getCache. by rewrite Hk, He. Qed.

Lemma getCache_absent k now c :
  c !! k = None → getCache k now c = (JNull, c).
Proof. intros Hk. unfold getCache. by rewrite Hk. Qed.

Lemma expired_spec now e :
  expired now e = true ↔ 1000 * ttlSec e < now - ts e.
Proof. unfold expired. apply Z.ltb_lt. Qed.

Lemma readable_iff k now c :
  readable k now c ↔ ∃ e, c !! k = Some e ∧ now - ts e ≤ 1000 * ttlSec e.
Proof.
  split.
  - intros (e & Hk & Hg). exists e. split; [done|].
    destruct (expired now e) eqn:He.
    + rewrite (getCache_stale _ _ _ _ Hk He) in Hg.
      assert (Hd : delete k c !! k = c !! k) by congruence.
      rewrite lookup_delete_eq, Hk in Hd. discriminate.
    + apply Z.ltb_ge in He. lia.
  - intros (e & Hk & Hage). exists e. split; [done|].
    apply getCache_fresh; [done|]. apply Z.ltb_ge. lia.
Qed.

(** C3. Cache store: a value that was just set is read back; once
    more than [t] seconds have passed since the set, the lookup answers
    [null] and takes the entry out of the store; and an entry of any
    store is readable exactly when its age does not exceed its lifetime
    (nothing but a lookup removes an expired entry). *)
Theorem cache_set_then_get k v t now c :
  0 ≤ t →
  let c' := setCache k v (Some t) now c in
  getCache k now c' = (v, c')
  ∧ (∀ later, 1000 * t < later - now →
       getCache k later c' = (JNull, delete k c') ∧ delete k c' !! k = None)
  ∧ (∀ later, later - now ≤ 1000 * t → getCache k later c' = (v, c'))
  ∧ (∀ at_ c0, readable k at_ c0 ↔
       ∃ e, c0 !! k = Some e ∧ at_ - ts e ≤ 1000 * ttlSec e).
Proof.
  intros Ht c'.
  assert (Hk : c' !! k = Some (Entry now t v)) by apply lookup_insert_eq.
  repeat split.
  - apply (getCache_fresh _ _ _ _ Hk). apply Z.ltb_ge. simpl. lia.
  - apply (getCache_stale _ _ _ _ Hk). apply Z.ltb_lt. simpl. lia.
  - apply lookup_delete_eq.
  - intros later Hl. apply (getCache_fresh _ _ _ _ Hk). apply Z.ltb_ge. simpl. lia.
  - apply readable_iff.
  - apply readable_iff.
Qed.

(** Without a third argument the lifetime is 30 seconds. *)
Lemma setCache_default_ttl k v now c :
  ttlSec <$> (setCache k v None now c !! k) = Some 30.
Proof. unfold setCache. by rewrite lookup_insert_eq. Qed.

(** A lookup never adds or alters an entry. *)
Lemma getCache_store k now c :
  (getCache k now c).2 = c
  ∨ (∃ e, c !! k = Some e ∧ expired now e = true ∧ (getCache k now c).2 = delete k c).
Proof.
  unfold getCache. destruct (c !! k) as [e|] eqn:Hk; [|by left].
  destruct (expired now e) eqn:He; [right; by exists e | by left].
Qed.

Lemma getCache_other k k' now c :
  k ≠ k' → (getCache k now c).2 !! k' = c !! k'.
Proof.
  intros Hne. destruct (getCache_store k now c) as [->|(e & _ & _ & ->)]; [done|].
  by apply lookup_delete_ne.
Qed.

End CacheStore.

Lemma cache_set_then_get_witness :
  0 ≤ 20 ∧
  getCache "predictor:A:detail=false" 1000
    (setCache "predictor:A:detail=false" (JStr "v") (Some 20) 1000 ∅)
  = (JStr "v", setCache "predictor:A:detail=false" (JStr "v") (Some 20) 1000 ∅).
Proof.
  assert (H : 0 ≤ 20) by lia.
  split; [exact H|].
  exact (proj1 (cache_set_then_get "predictor:A:detail=false" (JStr "v") 20 1000 ∅ H)).
Defined.


(** ** Cache keys *)

Section CacheKeys.

Lemma chars_app (a b : string) :
  list_ascii_of_string (a +:+ b)
  = (list_ascii_of_string a ++ list_ascii_of_string b)%list.
Proof. induction a as [|x a IH]; simpl; [done | by rewrite IH]. Qed.

Lemma chars_inj (a b : string) :
  list_ascii_of_string a = list_ascii_of_string b → a = b.
Proof.
  intros H.
  rewrite <- (string_of_list_ascii_of_string a), <- (string_of_list_ascii_of_string b).
  by rewrite H.
Qed.

(** The text after [matchId] has one of two shapes, and they end
    differently. *)
Lemma detail_suffix_inj (m1 m2 : string) (d1 d2 : bool) :
  m1 +:+ ":detail=" +:+ (if d1 then "true" else "false")
  = m2 +:+ ":detail=" +:+ (if d2 then "true" else "false") →
  m1 = m2 ∧ d1 = d2.
Proof.
  intros H. apply (f_equal list_ascii_of_string) in H.
  rewrite !chars_app in H.
  destruct d1, d2; simpl in H.
  - apply app_inj_2 in H as [H _]; [|done]. split; [by apply chars_inj | done].
  - exfalso.
    change (list_ascii_of_string m1
              ++ list_ascii_of_string ":detail=" ++ list_ascii_of_string "true"
            = list_ascii_of_string m2
              ++ list_ascii_of_string ":detail=f" ++ list_ascii_of_string "alse")%list in H.
    rewrite !app_assoc in H. apply app_inj_2 in H as [_ H]; [|done]. discriminate.
  - exfalso.
    change (list_ascii_of_string m1
              ++ list_ascii_of_string ":detail=f" ++ list_ascii_of_string "alse"
            = list_ascii_of_string m2
              ++ list_ascii_of_string ":detail=" ++ list_ascii_of_string "true")%list in H.
    rewrite !app_assoc in H. apply app_inj_2 in H as [_ H]; [|done]. discriminate.
  - apply app_inj_2 in H as [H _]; [|done]. split; [by apply chars_inj | done].
Qed.

Lemma cacheKey_inj (m1 m2 : string) (d1 d2 : bool) :
  cacheKey m1 d1 = cacheKey m2 d2 ↔ m1 = m2 ∧ d1 = d2.
Proof.
  split.
  - unfold cacheKey. intros H. apply (inj (String.app "predictor:")) in H.
    by apply detail_suffix_inj.
  - by intros [-> ->].
Qed.

(** C9. Cache keys: the key is a function of the match identifier and
    the detail flag that is equal on two queries exactly when both
    fields are; hence an entry stored for one query does not change
    what a lookup for a different query returns, and the entries stored
    for ("A", false) are not the ones looked up for ("A", true) or
    ("B", false). *)
Theorem cacheKey_separation :
  (∀ m1 d1 m2 d2, cacheKey m1 d1 = cacheKey m2 d2 ↔ m1 = m2 ∧ d1 = d2)
  ∧ (∀ m1 d1 m2 d2 v ttl now later (c : gmap string entry),
       (m1, d1) ≠ (m2, d2) →
       (getCache (cacheKey m2 d2) later (setCache (cacheKey m1 d1) v ttl now c)).1
       = (getCache (cacheKey m2 d2) later c).1)
  ∧ cacheKey "A" false ≠ cacheKey "A" true
  ∧ cacheKey "A" false ≠ cacheKey "B" false.
Proof.
  split; [intros; apply cacheKey_inj|]. split; [|split; by vm_compute].
  intros m1 d1 m2 d2 v ttl now later c Hne.
  assert (Hk : cacheKey m1 d1 ≠ cacheKey m2 d2).
  { intros [-> ->]%cacheKey_inj. by apply Hne. }
  unfold getCache, setCache. rewrite lookup_insert_ne by done.
  destruct (c !! cacheKey m2 d2) as [e|]; [|done].
  by destruct (expired later e).
Qed.

End CacheKeys.

Lemma cacheKey_separation_witness :
  ("A", false) ≠ ("A", true)
  ∧ (getCache (cacheKey "A" true) 5
       (setCache (cacheKey "A" false) (JStr "summary") (Some 20) 0 ∅)).1
    = (getCache (cacheKey "A" true) 5 ∅).1.
Proof.
  assert (H : ("A", false) ≠ ("A", true)) by discriminate.
  split; [exact H|].
  exact (proj1 (proj2 cacheKey_separation)
           "A" false "A" true (JStr "summary") (Some 20) 0 5 ∅ H).
Defined.


(** ** Upstream client *)

Section UpstreamClient.
Context (cfg : config) (w : world).
Implicit Types (matchId : string) (detail fwd : bool) (now : Z)
  (c : gmap string entry).

(** A truthy cached value is returned as it is; nothing is sent. *)
Lemma fetch_hit matchId detail fwd now c :
  truthy (getCache (cacheKey matchId detail) now c).1 = true →
  fetchPredictorMatch cfg w matchId detail fwd now c
  = Fetched (At now (getCache (cacheKey matchId detail) now c).1)
      (getCache (cacheKey matchId detail) now c).2 [].
Proof.
  intros H. unfold fetchPredictorMatch, fetch_start.
  destruct (getCache (cacheKey matchId detail) now c) as [cached c1].
  simpl in H. by rewrite H.
Qed.

(** Otherwise one request goes out, and the call ends as the [try]
    block does. *)
Lemma fetch_miss matchId detail fwd now c :
  truthy (getCache (cacheKey matchId detail) now c).1 = false →
  fetchPredictorMatch cfg w matchId detail fwd now c
  = let key := cacheKey matchId detail in
    let req := build_request cfg matchId detail fwd in
    let c1 := (getCache key now c).2 in
    match try_block (net w now req) with
    | At d (inr (Some j)) =>
        Fetched (At (now + d) j) (setCache key j (Some PREDICTOR_TTL) (now + d) c1) [req]
    | At d _ => Fetched (At (now + d) JNull) c1 [req]
    | Never => Fetched Never c1 [req]
    end.
Proof.
  intros H. unfold fetchPredictorMatch, fetch_start.
  destruct (getCache (cacheKey matchId detail) now c) as [cached c1].
  simpl in H. rewrite H. simpl.
  destruct (try_block _) as [d [e|[j|]]|]; done.
Qed.

Lemma try_block_failure ev :
  upstream_failure ev →
  ∃ d, (∃ e, try_block ev = At d (inl e)) ∨ try_block ev = At d (inr None).
Proof.
  unfold try_block.
  intros [d status b Hok | d | d status d2 | ]; simpl.
  - destruct (d <? TIMEOUT_MS); [|eauto]. rewrite Hok. simpl. eauto.
  - destruct (d <? TIMEOUT_MS); eauto.
  - destruct (d <? TIMEOUT_MS); [|eauto].
    destruct (resp_ok status); simpl; eauto.
  - eauto.
Qed.

Lemma try_block_success ev d j :
  try_block ev = At d (inr (Some j)) ↔ upstream_success ev d j.
Proof.
  unfold try_block, upstream_success. split.
  - destruct ev as [d1 | d1 status b | ]; simpl.
    + destruct (d1 <? TIMEOUT_MS); discriminate.
    + destruct (d1 <? TIMEOUT_MS) eqn:Hd; [|discriminate].
      destruct (resp_ok status) eqn:Hok; simpl; [|discriminate].
      destruct b as [d2 j' | d2 | ]; simpl; intros H; simplify_eq.
      exists d1, status, d2. repeat split; [by apply Z.ltb_lt | done].
    + discriminate.
  - intros (d1 & status & d2 & -> & Hd & Hok & ->). simpl.
    apply Z.ltb_lt in Hd. by rewrite Hd, Hok.
Qed.

Lemma failed_fetch_cache matchId detail fwd now c :
  truthy (getCache (cacheKey matchId detail) now c).1 = false →
  upstream_failure (net w now (build_request cfg matchId detail fwd)) →
  f_cache (fetchPredictorMatch cfg w matchId detail fwd now c)
  = (getCache (cacheKey matchId detail) now c).2.
Proof.
  intros Hmiss Hfail. rewrite (fetch_miss _ _ _ _ _ Hmiss). simpl.
  by destruct (try_block_failure _ Hfail) as [d [[e ->] | ->]].
Qed.

(** C5. Upstream failures: on a call that consults the upstream, a
    status that is not a success, a transport error and a body that is
    not JSON all make the call return [null]. Inside the call the
    failure is an exception of the [try] block or its [return null];
    the caller sees neither: the promise of the call resolves with
    [null], and the cache is what the lookup left. *)
Theorem upstream_failure_is_null matchId detail fwd now c :
  truthy (getCache (cacheKey matchId detail) now c).1 = false →
  upstream_failure (net w now (build_request cfg matchId detail fwd)) →
  ∃ d,
    ((∃ e, try_block (net w now (build_request cfg matchId detail fwd)) = At d (inl e))
     ∨ try_block (net w now (build_request cfg matchId detail fwd)) = At d (inr None))
    ∧ fetchPredictorMatch cfg w matchId detail fwd now c
      = Fetched (At (now + d) JNull) (getCache (cacheKey matchId detail) now c).2
          [build_request cfg matchId detail fwd].
Proof.
  intros Hmiss Hfail. rewrite (fetch_miss _ _ _ _ _ Hmiss). simpl.
  destruct (try_block_failure _ Hfail) as [d [[e He] | He]];
    exists d; rewrite He; eauto.
Qed.

Lemma build_headers_accept fwd :
  build_headers cfg fwd !! "Accept" = Some "application/json".
Proof.
  unfold build_headers.
  destruct (fwd && negb (String.eqb (PREDICTOR_API_KEY cfg) "")); [|done].
  by rewrite lookup_insert_ne.
Qed.

Lemma build_headers_key fwd :
  build_headers cfg fwd !! "x-api-key"
  = if fwd && negb (String.eqb (PREDICTOR_API_KEY cfg) "")
    then Some (PREDICTOR_API_KEY cfg) else None.
Proof.
  unfold build_headers.
  destruct (fwd && negb (String.eqb (PREDICTOR_API_KEY cfg) "")); [|done].
  by rewrite lookup_insert_eq.
Qed.

Lemma fetch_sent matchId detail fwd now c :
  f_sent (fetchPredictorMatch cfg w matchId detail fwd now c)
  = if truthy (getCache (cacheKey matchId detail) now c).1 then []
    else [build_request cfg matchId detail fwd].
Proof.
  destruct (truthy (getCache (cacheKey matchId detail) now c).1) eqn:H.
  - by rewrite fetch_hit.
  - rewrite fetch_miss by done. simpl.
    by destruct (try_block _) as [d [e|[j|]]|].
Qed.

(** C6. Request headers: every request that a call sends carries
    [Accept: application/json]; it carries the [x-api-key] header
    exactly when forwarding was asked for and the configured key is
    not empty, and the header then holds the configured key. A call
    that misses the cache sends exactly one such request. *)
Theorem request_headers matchId detail fwd now c :
  Forall (λ req,
      headers req !! "Accept" = Some "application/json"
      ∧ (is_Some (headers req !! "x-api-key")
         ↔ fwd = true ∧ PREDICTOR_API_KEY cfg ≠ "")
      ∧ (∀ k, headers req !! "x-api-key" = Some k → k = PREDICTOR_API_KEY cfg))
    (f_sent (fetchPredictorMatch cfg w matchId detail fwd now c))
  ∧ (truthy (getCache (cacheKey matchId detail) now c).1 = false →
     f_sent (fetchPredictorMatch cfg w matchId detail fwd now c)
     = [build_request cfg matchId detail fwd]).
Proof.
  rewrite fetch_sent. split.
  - destruct (truthy _); constructor; [|constructor]. simpl.
    split; [apply build_headers_accept|]. rewrite build_headers_key.
    destruct fwd; simpl.
    + destruct (String.eqb_spec (PREDICTOR_API_KEY cfg) ""); simpl.
      * split; [split; [intros [? ?]; discriminate | intros [_ ?]; done] | discriminate].
      * split; [split; [done | by eexists] | congruence].
    + split; [split; [intros [? ?]; discriminate | intros [? _]; discriminate] | discriminate].
  - by intros ->.
Qed.

End UpstreamClient.

Lemma upstream_failure_is_null_witness :
  truthy (getCache (cacheKey "m1" false) 0 ∅).1 = false
  ∧ upstream_failure
      (net Scenario.w_down 0 (build_request Scenario.cfg0 "m1" false false))
  ∧ ∃ d,
      ((∃ e, try_block (net Scenario.w_down 0
                          (build_request Scenario.cfg0 "m1" false false))
             = At d (inl e))
       ∨ try_block (net Scenario.w_down 0
                      (build_request Scenario.cfg0 "m1" false false))
         = At d (inr None))
      ∧ fetchPredictorMatch Scenario.cfg0 Scenario.w_down "m1" false false 0 ∅
        = Fetched (At (0 + d) JNull) (getCache (cacheKey "m1" false) 0 ∅).2
            [build_request Scenario.cfg0 "m1" false false].
Proof.
  assert (H1 : truthy (getCache (cacheKey "m1" false) 0 ∅).1 = false) by reflexivity.
  assert (H2 : upstream_failure
                 (net Scenario.w_down 0 (build_request Scenario.cfg0 "m1" false false)))
    by apply failure_transport.
  split; [exact H1|]. split; [exact H2|].
  exact (upstream_failure_is_null Scenario.cfg0 Scenario.w_down "m1" false false 0 ∅ H1 H2).
Defined.

Lemma request_headers_witness :
  truthy (getCache (cacheKey "m1" true) 0 ∅).1 = false
  ∧ f_sent (fetchPredictorMatch Scenario.cfg_key Scenario.w_up "m1" true true 0 ∅)
    = [build_request Scenario.cfg_key "m1" true true].
Proof.
  assert (H : truthy (getCache (cacheKey "m1" true) 0 ∅).1 = false) by reflexivity.
  split; [exact H|].
  exact (proj2 (request_headers Scenario.cfg_key Scenario.w_up "m1" true true 0 ∅) H).
Defined.

(** ** Upstream client: what a call does to the cache *)

Section UpstreamCache.
Context (cfg : config) (w : world).
Implicit Types (matchId : string) (detail fwd : bool) (now : Z)
  (c : gmap string entry).

(** C7, as the code has it. When the upstream fetch of a call succeeds,
    the payload is stored under the key of (matchId, detail) with a
    lifetime of 20 seconds, stamped with the time of completion. No
    other call creates or overwrites an entry: after it the store is the
    one the cache lookup left, which is the store from before the call,
    less the entry under the call's own key when that entry had
    expired. *)
Theorem fetch_cache_effect matchId detail fwd now c :
  let key := cacheKey matchId detail in
  let r := fetchPredictorMatch cfg w matchId detail fwd now c in
  let c1 := (getCache key now c).2 in
  (∀ d j,
     truthy (getCache key now c).1 = false →
     upstream_success (net w now (build_request cfg matchId detail fwd)) d j →
     f_value r = At (now + d) j
     ∧ f_cache r = <[key := Entry (now + d) 20 j]> c1
     ∧ f_cache r !! key = Some (Entry (now + d) 20 j))
  ∧ (truthy (getCache key now c).1 = true
     ∨ (¬ ∃ d j, upstream_success (net w now (build_request cfg matchId detail fwd)) d j) →
     f_cache r = c1)
  ∧ (c1 = c ∨ ∃ e, c !! key = Some e ∧ expired now e = true ∧ c1 = delete key c).
Proof.
  intros key r c1. split; [|split].
  - intros d j Hmiss Hok. subst r. rewrite (fetch_miss _ _ _ _ _ _ _ Hmiss). simpl.
    apply try_block_success in Hok. rewrite Hok. simpl.
    split; [done|]. split; [done|]. apply lookup_insert_eq.
  - intros [Hhit | Hno]; subst r.
    + by rewrite (fetch_hit _ _ _ _ _ _ _ Hhit).
    + destruct (truthy (getCache key now c).1) eqn:Hc.
      * by rewrite (fetch_hit _ _ _ _ _ _ _ Hc).
      * rewrite (fetch_miss _ _ _ _ _ _ _ Hc). simpl.
        destruct (try_block _) as [d [e|[j|]]|] eqn:Ht; try done.
        exfalso. apply Hno. exists d, j. by apply try_block_success.
  - apply getCache_store.
Qed.

(** A failed call in particular leaves every other key alone and never
    makes a key readable that was not. *)
Lemma failed_fetch_lookup matchId detail fwd now c k :
  truthy (getCache (cacheKey matchId detail) now c).1 = false →
  upstream_failure (net w now (build_request cfg matchId detail fwd)) →
  f_cache (fetchPredictorMatch cfg w matchId detail fwd now c) !! k = c !! k
  ∨ (k = cacheKey matchId detail
     ∧ f_cache (fetchPredictorMatch cfg w matchId detail fwd now c) !! k = None).
Proof.
  intros Hmiss Hfail.
  rewrite (failed_fetch_cache cfg w _ _ _ _ _ Hmiss Hfail).
  destruct (decide (cacheKey matchId detail = k)) as [<-|Hne].
  - destruct (getCache_store (cacheKey matchId detail) now c) as [->|(e & _ & _ & ->)].
    + by left.
    + right. split; [done|]. apply lookup_delete_eq.
  - left. by apply getCache_other.
Qed.

End UpstreamCache.

Lemma fetch_cache_effect_witness :
  truthy (getCache (cacheKey "m1" false) 0 ∅).1 = false
  ∧ upstream_success
      (net Scenario.w_up 0 (build_request Scenario.cfg0 "m1" false false))
      42 Scenario.pick_home
  ∧ f_cache (fetchPredictorMatch Scenario.cfg0 Scenario.w_up "m1" false false 0 ∅)
      !! cacheKey "m1" false
    = Some (Entry (0 + 42) 20 Scenario.pick_home).
Proof.
  assert (H1 : truthy (getCache (cacheKey "m1" false) 0 ∅).1 = false) by reflexivity.
  assert (H2 : upstream_success
                 (net Scenario.w_up 0 (build_request Scenario.cfg0 "m1" false false))
                 42 Scenario.pick_home).
  { exists 40, 200, 2. repeat split. }
  split; [exact H1|]. split; [exact H2|].
  exact (proj2 (proj2 (proj1
    (fetch_cache_effect Scenario.cfg0 Scenario.w_up "m1" false false 0 ∅)
    42 Scenario.pick_home H1 H2))).
Defined.

(** C7, as stated, fails: a call whose upstream fetch fails does not
    leave the cache unchanged when the entry under its key had expired.
    At time 30000 the entry stored at time 0 for 20 seconds is purged by
    the lookup that precedes the request; the request fails; the store
    is empty afterwards. *)
Lemma failed_fetch_changes_cache :
  upstream_failure
    (net Scenario.w_down 30000 (build_request Scenario.cfg0 "A" false false))
  ∧ f_value (fetchPredictorMatch Scenario.cfg0 Scenario.w_down "A" false false
               30000 Scenario.stale)
    = At 30003 JNull
  ∧ Scenario.stale !! cacheKey "A" false = Some (Entry 0 20 (JStr "old"))
  ∧ f_cache (fetchPredictorMatch Scenario.cfg0 Scenario.w_down "A" false false
               30000 Scenario.stale) !! cacheKey "A" false
    = None
  ∧ f_cache (fetchPredictorMatch Scenario.cfg0 Scenario.w_down "A" false false
               30000 Scenario.stale)
    ≠ Scenario.stale.
Proof.
  split; [apply failure_transport|].
  split; [by vm_compute|]. split; [by vm_compute|].
  assert (H : f_cache (fetchPredictorMatch Scenario.cfg0 Scenario.w_down
                         "A" false false 30000 Scenario.stale)
              !! cacheKey "A" false = None) by (by vm_compute).
  split; [exact H|].
  intros Heq. rewrite Heq in H. by vm_compute in H.
Qed.

(** ** Upstream client: the timeout *)

(** The wait for the response head never lasts longer than the timer. *)
Lemma await_fetch_bounded (ev : fetch_event) :
  (await_fetch ev).1 ≤ TIMEOUT_MS.
Proof.
  destruct ev as [d | d status b | ]; simpl; [| |done];
    destruct (d <? TIMEOUT_MS) eqn:H; simpl; try done; apply Z.ltb_lt in H; lia.
Qed.

(** An upstream that never answers: the request is aborted when the
    timer fires, and the call returns [null] at that moment. *)
Lemma silent_upstream_times_out (cfg : config) (w : world)
    (matchId : string) (detail fwd : bool) (now : Z) (c : gmap string entry) :
  truthy (getCache (cacheKey matchId detail) now c).1 = false →
  net w now (build_request cfg matchId detail fwd) = Silent →
  f_value (fetchPredictorMatch cfg w matchId detail fwd now c)
  = At (now + TIMEOUT_MS) JNull.
Proof.
  intros Hmiss Hs. rewrite (fetch_miss _ _ _ _ _ _ _ Hmiss). simpl. by rewrite Hs.
Qed.

(** A success head in time followed by a body that never completes: the
    call stays pending, whatever the configuration, the match and the
    time of the call. *)
Lemma stalled_body_blocks (cfg : config) (w : world)
    (matchId : string) (detail fwd : bool) (now : Z) (c : gmap string entry)
    (d status : Z) :
  truthy (getCache (cacheKey matchId detail) now c).1 = false →
  net w now (build_request cfg matchId detail fwd) = Head d status BodyStalled →
  d < TIMEOUT_MS → resp_ok status = true →
  f_value (fetchPredictorMatch cfg w matchId detail fwd now c) = Never.
Proof.
  intros Hmiss Hs Hd Hok. rewrite (fetch_miss _ _ _ _ _ _ _ Hmiss). simpl.
  rewrite Hs. unfold try_block. simpl. apply Z.ltb_lt in Hd. by rewrite Hd, Hok.
Qed.

(** C8 at the failing input. The timer is cleared as soon as the head of
    the response has arrived (line 183), before the body is read (line
    188): when the upstream sends a success head in time and then never
    completes the body, nothing aborts the request and the call never
    settles, and neither does the handler that awaits it. Against an
    upstream that sends nothing at all the same call returns [null] when
    the timer fires. *)
Theorem stalled_body_never_settles :
  net Scenario.w_stall 0 (build_request Scenario.cfg0 "m1" false false)
  = Head 10 200 BodyStalled
  ∧ f_value (fetchPredictorMatch Scenario.cfg0 Scenario.w_stall "m1" false false 0 ∅)
    = Never
  ∧ r_response (handle_prediction Scenario.cfg0 Scenario.w_stall "m1" None None 0 ∅)
    = Never
  ∧ f_value (fetchPredictorMatch Scenario.cfg0 Scenario.w_silent "m1" false false 0 ∅)
    = At 5000 JNull.
Proof.
  split; [reflexivity|]. split; [|split].
  - apply (stalled_body_blocks _ _ _ _ _ _ _ 10 200); [reflexivity | reflexivity | | reflexivity].
    unfold TIMEOUT_MS. lia.
  - unfold handle_prediction, respond_with. simpl.
    rewrite (stalled_body_blocks _ _ _ _ _ _ _ 10 200);
      [reflexivity | reflexivity | reflexivity | | reflexivity].
    unfold TIMEOUT_MS. lia.
  - apply (silent_upstream_times_out Scenario.cfg0 Scenario.w_silent); reflexivity.
Qed.


(** ** Single-match handler *)

Section TextFacts.

Lemma take_app_length (p x : string) (n : nat) :
  String.length p = n → Str.take n (p +:+ x) = p.
Proof.
  revert n. induction p as [|a p IH]; intros [|n] Hn; simpl in *; try done.
  f_equal. apply IH. lia.
Qed.

Lemma drop_app_length (p x : string) (n : nat) :
  String.length p = n → Str.drop n (p +:+ x) = x.
Proof.
  revert n. induction p as [|a p IH]; intros [|n] Hn; simpl in *; try done.
  apply IH. lia.
Qed.




Lemma lower_is (a : ascii) (x : ascii) :
  Str.lower a = x →
  (x = "t" → a = "t" ∨ a = "T")%char ∧ (x = "r" → a = "r" ∨ a = "R")%char
  ∧ (x = "u" → a = "u" ∨ a = "U")%char ∧ (x = "e" → a = "e" ∨ a = "E")%char.
Proof.
  intros <-.
  destruct a as [[] [] [] [] [] [] [] []]; vm_compute;
    repeat split; intros H; try discriminate H; auto.
Qed.

Lemma toLowerCase_true (s : string) :
  Str.toLowerCase s = "true" ↔ is_true_ci s.
Proof.
  split.
  - destruct s as [|a [|b [|c [|d [|? ?]]]]]; simpl; try discriminate.
    intros H. injection H as Ha Hb Hc Hd.
    exists a, b, c, d. split; [done|].
    destruct (lower_is a _ Ha) as (Ht & _).
    destruct (lower_is b _ Hb) as (_ & Hr & _).
    destruct (lower_is c _ Hc) as (_ & _ & Hu & _).
    destruct (lower_is d _ Hd) as (_ & _ & _ & He).
    auto.
  - intros (a & b & c & d & -> & [-> | ->] & [-> | ->] & [-> | ->] & [-> | ->]);
      reflexivity.
Qed.

End TextFacts.

Section SingleMatch.
Context (cfg : config) (w : world).
Implicit Types (matchId : string) (q auth : option string) (now : Z)
  (c : gmap string entry).

Lemma verifyJWT_missing : verifyJWT w cfg (str_or None "") = JNull.
Proof. reflexivity. Qed.


Lemma verifyJWT_valid (a : string) (payload : json) :
  a ≠ "" → jwt_verify w (Str.strip_bearer a) (JWT_SECRET cfg) = Some payload →
  verifyJWT w cfg (str_or (Some a) "") = payload.
Proof.
  intros Ha H. unfold verifyJWT, str_or.
  destruct (String.eqb_spec a ""); [done|].
  destruct (String.eqb_spec a ""); [done|]. by rewrite H.
Qed.



Lemma detail_flag_true q :
  detail_flag q = true ↔ ∃ s, q = Some s ∧ is_true_ci s.
Proof.
  unfold detail_flag. rewrite String.eqb_eq. split.
  - destruct q as [s|]; simpl; [|discriminate].
    destruct (String.eqb_spec s "") as [->|Hs]; [discriminate|].
    intros H. exists s. split; [done|]. by apply toLowerCase_true.
  - intros (s & -> & Hs). simpl.
    destruct (String.eqb_spec s "") as [->|_].
    + destruct Hs as (? & ? & ? & ? & ? & _). discriminate.
    + by apply toLowerCase_true.
Qed.

(** C10, as the code has it. The detail flag: the handler takes the
    [detail=true] branch exactly when the [detail] query parameter is a
    text equal to ["true"] up to the case of its letters. When the
    parameter is missing or is any other text (["1"] and ["yes"] for
    instance), the flag is false and the handler goes straight to the
    upstream call for the summary, without the privileged key, and
    answers with its outcome whatever the [Authorization] header is.
    When the parameter is not a text (an array or an object, from a
    repeated or bracketed parameter), the handler answers 500 at once,
    without any upstream request. *)
Theorem detail_parameter matchId (q : option json) now c :
  ((∃ text, detail_text q = Some text ∧ detail_flag text = true)
   ↔ ∃ s, q = Some (JStr s) ∧ is_true_ci s)
  ∧ detail_flag None = false
  ∧ detail_flag (Some "1") = false
  ∧ detail_flag (Some "yes") = false
  ∧ (q = None ∨ (∃ s, q = Some (JStr s) ∧ ¬ is_true_ci s) →
     ∀ auth,
       prediction_route cfg w matchId q auth now c
       = respond_with (fetchPredictorMatch cfg w matchId false false now c))
  ∧ ((∃ items, q = Some (JArr items)) ∨ (∃ fields, q = Some (JObj fields)) →
     ∀ auth,
       prediction_route cfg w matchId q auth now c = Reply (At now SERVER_ERROR) c []
       ∧ status SERVER_ERROR = 500).
Proof.
  split; [|split; [done|split; [done|split; [done|split]]]].
  - split.
    + intros (text & Ht & Hf). apply detail_flag_true in Hf as (s & -> & Hs).
      exists s. split; [|done].
      destruct q as [[|b0|n|s'|items|fields]|]; simpl in Ht; try discriminate;
        [by destruct b0 | by destruct (negb _) | by injection Ht as ->].
    + intros (s & -> & Hs). exists (Some s). split; [done|].
      apply detail_flag_true. by exists s.
  - intros Hq auth. unfold prediction_route.
    assert (∃ text, detail_text q = Some text ∧ detail_flag text = false)
      as (text & -> & Hf).
    { destruct Hq as [-> | (s & -> & Hs)]; [by exists None|].
      exists (Some s). split; [done|]. apply not_true_is_false.
      intros (s' & [= <-] & Hs')%detail_flag_true. by apply Hs. }
    unfold handle_prediction. by rewrite Hf.
  - intros [[items ->] | [fields ->]] auth; done.
Qed.

End SingleMatch.



Lemma detail_parameter_witness :
  (Some (JStr "false") = None
   ∨ ∃ s, Some (JStr "false") = Some (JStr s) ∧ ¬ is_true_ci s)
  ∧ prediction_route Scenario.cfg0 Scenario.w_up "m1" (Some (JStr "false")) None 0 ∅
    = respond_with (fetchPredictorMatch Scenario.cfg0 Scenario.w_up "m1" false false 0 ∅).
Proof.
  assert (H : Some (JStr "false") = None
              ∨ ∃ s, Some (JStr "false") = Some (JStr s) ∧ ¬ is_true_ci s).
  { right. exists "false". split; [reflexivity|].
    intros (a & b & c & d & Heq & _). discriminate Heq. }
  split; [exact H|].
  exact (proj1 (proj2 (proj2 (proj2 (proj2
    (detail_parameter Scenario.cfg0 Scenario.w_up "m1" (Some (JStr "false")) 0 ∅)))))
    H None).
Defined.

(** C10, as stated, fails: a request with a repeated parameter,
    [?detail=a&detail=b], has an array for [req.query.detail]; the call
    of [toLowerCase] throws, and the handler answers 500 without
    sending anything to the upstream, where the summary call would have
    sent one request. *)
Lemma repeated_detail_answers_500 :
  prediction_route Scenario.cfg0 Scenario.w_up "m1"
    (Some (JArr [JStr "a"; JStr "b"])) None 0 ∅
  = Reply (At 0 SERVER_ERROR) ∅ []
  ∧ status SERVER_ERROR = 500
  ∧ r_response
      (respond_with (fetchPredictorMatch Scenario.cfg0 Scenario.w_up "m1" false false 0 ∅))
    = At 42 (Response 200 Scenario.pick_home)
  ∧ r_sent
      (respond_with (fetchPredictorMatch Scenario.cfg0 Scenario.w_up "m1" false false 0 ∅))
    = [build_request Scenario.cfg0 "m1" false false]
  ∧ prediction_route Scenario.cfg0 Scenario.w_up "m1"
      (Some (JArr [JStr "a"; JStr "b"])) None 0 ∅
    ≠ respond_with (fetchPredictorMatch Scenario.cfg0 Scenario.w_up "m1" false false 0 ∅).
Proof.
  assert (H : r_response
                (respond_with
                   (fetchPredictorMatch Scenario.cfg0 Scenario.w_up "m1" false false 0 ∅))
              = At 42 (Response 200 Scenario.pick_home)) by (by vm_compute).
  split; [reflexivity|]. split; [reflexivity|]. split; [exact H|].
  split; [by vm_compute|].
  intros Heq. apply (f_equal r_response) in Heq. rewrite H in Heq. discriminate Heq.
Qed.

(** ** Aggregator and routing *)

Section Aggregator.
Context (cfg : config) (w : world).
Implicit Types (now : Z) (c : gmap string entry).

Lemma start_all_length (ids : list string) now c :
  length (start_all cfg ids now c).1 = length ids.
Proof.
  revert c. induction ids as [|id ids IH]; intros c; simpl; [done|].
  destruct (fetch_start cfg id false false now c) as [cl c1].
  specialize (IH c1). destruct (start_all cfg ids now c1) as [cls c2].
  simpl in *. by rewrite IH.
Qed.

(** The handler of lines 204-223, taken on its own: when every call
    settles, the [M] calls that returned [null] are dropped from the [N]
    results, the remaining [N - M] values are sent in the order of the
    configured identifiers, and the fallback is sent when none remains;
    the status is 200 in both cases. *)
Lemma aggregator_drops_failures now c (results : list settled) :
  mapM id (map (fetch_settle w now)
             (start_all cfg (PREDICTOR_MATCH_IDS cfg) now c).1) = Some results →
  let N := length (PREDICTOR_MATCH_IDS cfg) in
  let cleaned := List.filter not_null (map s_value results) in
  let M := length (List.filter (λ v, negb (not_null v)) (map s_value results)) in
  (length cleaned = N - M)%nat ∧ (M ≤ N)%nat
  ∧ ∃ t, r_response (handle_predictions cfg w now c)
         = At t (Response 200
                   (if (M =? N)%nat then fallback (toISOString w t) else JArr cleaned)).
Proof.
  intros Hall N cleaned M.
  assert (HN : (length cleaned + M = N)%nat).
  { subst cleaned M N. rewrite List.filter_length, length_map.
    rewrite <- (length_mapM _ _ _ Hall), length_map. apply start_all_length. }
  split; [lia|]. split; [lia|].
  unfold handle_predictions.
  destruct (start_all cfg (PREDICTOR_MATCH_IDS cfg) now c) as [calls c1].
  simpl in Hall. rewrite Hall. fold cleaned.
  exists (foldr Z.max now (map s_at results)).
  destruct (Nat.eqb_spec (length cleaned) 0) as [H0|H0];
    destruct (Nat.eqb_spec M N) as [HM|HM]; try lia; done.
Qed.

(** One call that never settles keeps [Promise.all] pending: no response
    is sent. *)
Lemma aggregator_pending now c :
  mapM id (map (fetch_settle w now)
             (start_all cfg (PREDICTOR_MATCH_IDS cfg) now c).1) = None →
  r_response (handle_predictions cfg w now c) = Never.
Proof.
  intros Hall. unfold handle_predictions.
  destruct (start_all cfg (PREDICTOR_MATCH_IDS cfg) now c) as [calls c1].
  simpl in Hall. by rewrite Hall.
Qed.

(** C2 on the code. A [GET /api/predictions] is answered by the handler
    registered first (line 28): the response is the three sample
    predictions, no upstream request is made and the cache is not
    touched, whatever the configured matches and whatever the upstream
    does. The aggregating handler registered at line 204 for the same
    path is never run. *)
Theorem predictions_route_is_sample (q auth : option string) now c :
  serve cfg w (HttpGet ["api"; "predictions"] q auth) now c
  = Some (Reply (At now (Response 200 (sample (Str.take 10 (toISOString w now))))) c [])
  ∧ dispatch routes ["api"; "predictions"] = Some (SamplePredictions, [])
  ∧ ∀ today, ∃ p1 p2 p3, sample today = JArr [p1; p2; p3].
Proof. repeat split. intros today. by eexists _, _, _. Qed.

End Aggregator.

(** With two configured matches that both answer, the aggregating
    handler on its own sends the two payloads, and with an unreachable
    upstream the fallback; the application sends the three samples in
    both cases. *)
Lemma aggregator_versus_route :
  r_response (handle_predictions Scenario.cfg12 Scenario.w_up 0 ∅)
  = At 42 (Response 200 (JArr [Scenario.pick_home; Scenario.pick_home]))
  ∧ r_response (handle_predictions Scenario.cfg12 Scenario.w_down 0 ∅)
    = At 3 (Response 200 (fallback "2025-11-15T12:00:00.000Z"))
  ∧ (r_response <$> serve Scenario.cfg12 Scenario.w_up Scenario.get_predictions 0 ∅)
    = Some (At 0 (Response 200 (sample "2025-11-15")))
  ∧ (r_response <$> serve Scenario.cfg12 Scenario.w_down Scenario.get_predictions 0 ∅)
    = Some (At 0 (Response 200 (sample "2025-11-15"))).
Proof. repeat split. Qed.

(** C4 on the code. Scenario 1: the configured matches are [m1] and
    [m2], the upstream answers [m1] with [{pick:"Home"}] and never
    answers [m2]. The application answers [GET /api/predictions] with
    the three sample predictions, without any upstream request; that is
    not [[{pick:"Home"}]]. The aggregating handler on its own would send
    [[{pick:"Home"}]] once the call for [m2] has timed out. *)
Theorem scenario_one_is_sample :
  PREDICTOR_MATCH_IDS Scenario.cfg12 = ["m1"; "m2"]
  ∧ serve Scenario.cfg12 Scenario.w_m1 Scenario.get_predictions 0 ∅
    = Some (Reply (At 0 (Response 200 (sample "2025-11-15"))) ∅ [])
  ∧ sample "2025-11-15" ≠ JArr [Scenario.pick_home]
  ∧ r_response (handle_predictions Scenario.cfg12 Scenario.w_m1 0 ∅)
    = At 5000 (Response 200 (JArr [Scenario.pick_home])).
Proof. repeat split. discriminate. Qed.

(** * Further properties of the code *)

(** ** Cache store, continued *)

Section CacheStoreMore.
Implicit Types (k : string) (v : json) (t now : Z) (c : gmap string entry).

(** A set replaces the entry whole: whatever was stored under the key
    before, a later lookup is decided by the new time stamp and the new
    lifetime alone, and hands out the new value. *)
Theorem setCache_replaces k v1 ttl1 now1 v2 t2 now2 later c :
  setCache k v2 (Some t2) now2 (setCache k v1 ttl1 now1 c)
  = setCache k v2 (Some t2) now2 c
  ∧ (later - now2 ≤ 1000 * t2 →
     (getCache k later (setCache k v2 (Some t2) now2 (setCache k v1 ttl1 now1 c))).1 = v2)
  ∧ (1000 * t2 < later - now2 →
     getCache k later (setCache k v2 (Some t2) now2 (setCache k v1 ttl1 now1 c))
     = (JNull, delete k c)).
Proof.
  assert (Heq : setCache k v2 (Some t2) now2 (setCache k v1 ttl1 now1 c)
                = setCache k v2 (Some t2) now2 c).
  { unfold setCache. apply insert_insert_eq. }
  rewrite Heq. split; [done|].
  assert (Hk : setCache k v2 (Some t2) now2 c !! k = Some (Entry now2 t2 v2))
    by apply lookup_insert_eq.
  split; intros H.
  - rewrite (getCache_fresh _ _ _ _ Hk); [done|]. apply Z.ltb_ge. simpl. lia.
  - rewrite (getCache_stale _ _ _ _ Hk); [|apply Z.ltb_lt; simpl; lia].
    unfold setCache. by rewrite delete_insert_eq.
Qed.

(** A lookup never adds or alters an entry: the store afterwards is
    contained in the store before and agrees with it on every other
    key; and looking up again at the same time changes nothing more. *)
Theorem getCache_only_purges k now c :
  (getCache k now c).2 ⊆ c
  ∧ (∀ k', k' ≠ k → (getCache k now c).2 !! k' = c !! k')
  ∧ getCache k now (getCache k now c).2 = getCache k now c.
Proof.
  split; [|split].
  - destruct (getCache_store k now c) as [->|(e & _ & _ & ->)]; [done|].
    apply delete_subseteq.
  - intros k' Hne. by apply getCache_other.
  - unfold getCache at 2 3. destruct (c !! k) as [e|] eqn:Hk.
    + destruct (expired now e) eqn:He; simpl.
      * apply getCache_absent, lookup_delete_eq.
      * by apply getCache_fresh.
    + simpl. by apply getCache_absent.
Qed.

(** The lifetime is inclusive: an entry is still handed out when its age
    is exactly its lifetime, and purged one millisecond later. Without a
    third argument the lifetime is 30 seconds. *)
Theorem cache_lifetime_boundary k v t now c :
  getCache k (now + 1000 * t) (setCache k v (Some t) now c)
  = (v, setCache k v (Some t) now c)
  ∧ (getCache k (now + 1000 * t + 1) (setCache k v (Some t) now c)).1 = JNull
  ∧ (getCache k (now + 1000 * t + 1) (setCache k v (Some t) now c)).2 !! k = None
  ∧ getCache k (now + 30000) (setCache k v None now c) = (v, setCache k v None now c)
  ∧ (getCache k (now + 30001) (setCache k v None now c)).2 !! k = None.
Proof.
  assert (Hk : setCache k v (Some t) now c !! k = Some (Entry now t v))
    by apply lookup_insert_eq.
  assert (Hd : setCache k v None now c !! k = Some (Entry now 30 v))
    by apply lookup_insert_eq.
  split; [|split; [|split; [|split]]].
  - apply (getCache_fresh _ _ _ _ Hk). apply Z.ltb_ge. simpl. lia.
  - rewrite (getCache_stale _ _ _ _ Hk); [done|]. apply Z.ltb_lt. simpl. lia.
  - rewrite (getCache_stale _ _ _ _ Hk); [|apply Z.ltb_lt; simpl; lia].
    apply lookup_delete_eq.
  - apply (getCache_fresh _ _ _ _ Hd). apply Z.ltb_ge. simpl. lia.
  - rewrite (getCache_stale _ _ _ _ Hd); [|apply Z.ltb_lt; simpl; lia].
    apply lookup_delete_eq.
Qed.

End CacheStoreMore.

Lemma setCache_replaces_witness :
  7000 - 1000 ≤ 1000 * 20
  ∧ (getCache "k" 7000
       (setCache "k" (JStr "new") (Some 20) 1000 (setCache "k" (JStr "old") (Some 1) 0 ∅))).1
    = JStr "new".
Proof.
  assert (H : 7000 - 1000 ≤ 1000 * 20) by lia.
  split; [exact H|].
  exact (proj1 (proj2
    (setCache_replaces "k" (JStr "old") (Some 1) 0 (JStr "new") 20 1000 7000 ∅)) H).
Defined.

Lemma getCache_only_purges_witness :
  "other" ≠ "k"
  ∧ (getCache "k" 50000 (setCache "other" (JStr "x") (Some 20) 0 ∅)).2 !! "other"
    = setCache "other" (JStr "x") (Some 20) 0 ∅ !! "other".
Proof.
  assert (H : "other" ≠ "k") by discriminate.
  split; [exact H|].
  exact (proj1 (proj2
    (getCache_only_purges "k" 50000 (setCache "other" (JStr "x") (Some 20) 0 ∅)))
    "other" H).
Defined.

(** ** Upstream client, continued *)

Section UpstreamClientMore.
Context (cfg : config).
Implicit Types (w : world) (matchId : string) (detail fwd : bool) (now later : Z)
  (c : gmap string entry).

Lemma fetch_success w matchId detail fwd now c d j :
  truthy (getCache (cacheKey matchId detail) now c).1 = false →
  upstream_success (net w now (build_request cfg matchId detail fwd)) d j →
  fetchPredictorMatch cfg w matchId detail fwd now c
  = Fetched (At (now + d) j)
      (setCache (cacheKey matchId detail) j (Some PREDICTOR_TTL) (now + d)
         (getCache (cacheKey matchId detail) now c).2)
      [build_request cfg matchId detail fwd].
Proof.
  intros Hmiss Hok. rewrite (fetch_miss _ _ _ _ _ _ _ Hmiss). simpl.
  apply try_block_success in Hok. by rewrite Hok.
Qed.

Lemma fetch_warm w matchId detail fwd now c e :
  c !! cacheKey matchId detail = Some e → expired now e = false →
  truthy (value e) = true →
  fetchPredictorMatch cfg w matchId detail fwd now c = Fetched (At now (value e)) c [].
Proof.
  intros Hk He Hv.
  pose proof (getCache_fresh _ _ _ _ Hk He) as Hg.
  rewrite fetch_hit; rewrite Hg; done.
Qed.

(** A payload that was fetched is served from the cache for the next 20
    seconds: a later call for the same match and detail flag returns it
    at once, sends nothing and leaves the cache as it is, whatever the
    upstream does by then and whether or not that call forwards the
    key. *)
Theorem fetch_then_hit w w' matchId detail fwd fwd' now later c d j :
  truthy (getCache (cacheKey matchId detail) now c).1 = false →
  upstream_success (net w now (build_request cfg matchId detail fwd)) d j →
  truthy j = true →
  later - (now + d) ≤ 1000 * PREDICTOR_TTL →
  fetchPredictorMatch cfg w' matchId detail fwd' later
    (f_cache (fetchPredictorMatch cfg w matchId detail fwd now c))
  = Fetched (At later j) (f_cache (fetchPredictorMatch cfg w matchId detail fwd now c)) [].
Proof.
  intros Hmiss Hok Hj Hage. rewrite (fetch_success _ _ _ _ _ _ _ _ Hmiss Hok). simpl.
  apply (fetch_warm _ _ _ _ _ _ (Entry (now + d) PREDICTOR_TTL j)); [|apply Z.ltb_ge; simpl; lia|done].
  apply lookup_insert_eq.
Qed.

(** Once the 20 seconds are over, the next call goes to the upstream
    again: the stale entry is purged by the lookup and one request is
    sent. *)
Theorem fetch_after_expiry w w' matchId detail fwd fwd' now later c d j :
  truthy (getCache (cacheKey matchId detail) now c).1 = false →
  upstream_success (net w now (build_request cfg matchId detail fwd)) d j →
  1000 * PREDICTOR_TTL < later - (now + d) →
  f_sent (fetchPredictorMatch cfg w' matchId detail fwd' later
            (f_cache (fetchPredictorMatch cfg w matchId detail fwd now c)))
  = [build_request cfg matchId detail fwd'].
Proof.
  intros Hmiss Hok Hage. rewrite (fetch_success _ _ _ _ _ _ _ _ Hmiss Hok). simpl.
  rewrite fetch_sent.
  rewrite (getCache_stale _ _ _ (Entry (now + d) PREDICTOR_TTL j));
    [done | apply lookup_insert_eq | apply Z.ltb_lt; simpl; lia].
Qed.

(** A falsy payload ([null], [false], [0], the empty text) is stored
    like any other, but never served: the call that fetched it returns
    it, and every later call for the same query sends a request again,
    also within the lifetime of the entry. *)
Theorem falsy_payload_not_served w w' matchId detail fwd fwd' now later c d j :
  truthy (getCache (cacheKey matchId detail) now c).1 = false →
  upstream_success (net w now (build_request cfg matchId detail fwd)) d j →
  truthy j = false →
  f_value (fetchPredictorMatch cfg w matchId detail fwd now c) = At (now + d) j
  ∧ f_cache (fetchPredictorMatch cfg w matchId detail fwd now c) !! cacheKey matchId detail
    = Some (Entry (now + d) PREDICTOR_TTL j)
  ∧ f_sent (fetchPredictorMatch cfg w' matchId detail fwd' later
              (f_cache (fetchPredictorMatch cfg w matchId detail fwd now c)))
    = [build_request cfg matchId detail fwd'].
Proof.
  intros Hmiss Hok Hj. rewrite (fetch_success _ _ _ _ _ _ _ _ Hmiss Hok). simpl.
  split; [done|]. split; [apply lookup_insert_eq|].
  rewrite fetch_sent.
  set (c1 := setCache _ _ _ _ _).
  assert (Hk : c1 !! cacheKey matchId detail = Some (Entry (now + d) PREDICTOR_TTL j))
    by apply lookup_insert_eq.
  destruct (expired later (Entry (now + d) PREDICTOR_TTL j)) eqn:He.
  - by rewrite (getCache_stale _ _ _ _ Hk He).
  - rewrite (getCache_fresh _ _ _ _ Hk He). simpl. by rewrite Hj.
Qed.

(** The timer bounds the wait for the response head: unless a head with
    a success status arrives before the timer fires, a call that
    consults the upstream returns [null] no later than 5000 ms after it
    was made. *)
Theorem head_phase_bounded w matchId detail fwd now c :
  truthy (getCache (cacheKey matchId detail) now c).1 = false →
  (∀ d status b, net w now (build_request cfg matchId detail fwd) = Head d status b →
                 d < TIMEOUT_MS → resp_ok status = false) →
  ∃ t, f_value (fetchPredictorMatch cfg w matchId detail fwd now c) = At t JNull
       ∧ t ≤ now + TIMEOUT_MS.
Proof.
  intros Hmiss Hhead. rewrite (fetch_miss _ _ _ _ _ _ _ Hmiss). simpl.
  unfold try_block.
  destruct (net w now (build_request cfg matchId detail fwd)) as [d | d status b | ] eqn:Hev;
    simpl.
  - destruct (d <? TIMEOUT_MS) eqn:Hd; simpl; (eexists; split; [done|]);
      [apply Z.ltb_lt in Hd|]; lia.
  - destruct (d <? TIMEOUT_MS) eqn:Hd; simpl.
    + apply Z.ltb_lt in Hd. rewrite (Hhead d status b eq_refl Hd). simpl.
      eexists; split; [done|]. lia.
    + eexists; split; [done|]. lia.
  - eexists; split; [done|]. lia.
Qed.

Lemma setCache_wf matchId detail j t c :
  cache_wf c → cache_wf (setCache (cacheKey matchId detail) j (Some PREDICTOR_TTL) t c).
Proof.
  intros Hwf k e. unfold setCache.
  destruct (decide (cacheKey matchId detail = k)) as [<-|Hne].
  - rewrite lookup_insert_eq. intros [= <-]. split; [done|]. by eexists _, _.
  - rewrite lookup_insert_ne by done. apply Hwf.
Qed.

Lemma getCache_wf k now c : cache_wf c → cache_wf (getCache k now c).2.
Proof.
  intros Hwf k' e Hk'. apply Hwf.
  destruct (getCache_store k now c) as [Hc|(e' & _ & _ & Hc)]; rewrite Hc in Hk'; [done|].
  by apply lookup_delete_Some in Hk' as [_ ?].
Qed.

Lemma fetch_wf w matchId detail fwd now c :
  cache_wf c → cache_wf (f_cache (fetchPredictorMatch cfg w matchId detail fwd now c)).
Proof.
  intros Hwf.
  destruct (truthy (getCache (cacheKey matchId detail) now c).1) eqn:Hc.
  - rewrite fetch_hit by done. by apply getCache_wf.
  - rewrite fetch_miss by done. simpl.
    destruct (try_block _) as [d [e|[j|]]|]; simpl; try by apply getCache_wf.
    by apply setCache_wf, getCache_wf.
Qed.

End UpstreamClientMore.

Lemma fetch_then_hit_witness :
  truthy (getCache (cacheKey "m1" true) 0 ∅).1 = false
  ∧ upstream_success
      (net Scenario.w_up 0 (build_request Scenario.cfg_key "m1" true true))
      42 Scenario.pick_home
  ∧ truthy Scenario.pick_home = true
  ∧ 10000 - (0 + 42) ≤ 1000 * PREDICTOR_TTL
  ∧ fetchPredictorMatch Scenario.cfg_key Scenario.w_down "m1" true false 10000
      (f_cache (fetchPredictorMatch Scenario.cfg_key Scenario.w_up "m1" true true 0 ∅))
    = Fetched (At 10000 Scenario.pick_home)
        (f_cache (fetchPredictorMatch Scenario.cfg_key Scenario.w_up "m1" true true 0 ∅)) [].
Proof.
  assert (H1 : truthy (getCache (cacheKey "m1" true) 0 ∅).1 = false) by reflexivity.
  assert (H2 : upstream_success
                 (net Scenario.w_up 0 (build_request Scenario.cfg_key "m1" true true))
                 42 Scenario.pick_home).
  { exists 40, 200, 2. repeat split. }
  assert (H3 : truthy Scenario.pick_home = true) by reflexivity.
  assert (H4 : 10000 - (0 + 42) ≤ 1000 * PREDICTOR_TTL) by (unfold PREDICTOR_TTL; lia).
  split; [exact H1|]. split; [exact H2|]. split; [exact H3|]. split; [exact H4|].
  exact (fetch_then_hit Scenario.cfg_key Scenario.w_up Scenario.w_down "m1" true true false
           0 10000 ∅ 42 Scenario.pick_home H1 H2 H3 H4).
Defined.

Lemma fetch_after_expiry_witness :
  truthy (getCache (cacheKey "m1" false) 0 ∅).1 = false
  ∧ upstream_success
      (net Scenario.w_up 0 (build_request Scenario.cfg0 "m1" false false))
      42 Scenario.pick_home
  ∧ 1000 * PREDICTOR_TTL < 20043 - (0 + 42)
  ∧ f_sent (fetchPredictorMatch Scenario.cfg0 Scenario.w_up "m1" false false 20043
              (f_cache (fetchPredictorMatch Scenario.cfg0 Scenario.w_up "m1" false false 0 ∅)))
    = [build_request Scenario.cfg0 "m1" false false].
Proof.
  assert (H1 : truthy (getCache (cacheKey "m1" false) 0 ∅).1 = false) by reflexivity.
  assert (H2 : upstream_success
                 (net Scenario.w_up 0 (build_request Scenario.cfg0 "m1" false false))
                 42 Scenario.pick_home).
  { exists 40, 200, 2. repeat split. }
  assert (H3 : 1000 * PREDICTOR_TTL < 20043 - (0 + 42)) by (unfold PREDICTOR_TTL; lia).
  split; [exact H1|]. split; [exact H2|]. split; [exact H3|].
  exact (fetch_after_expiry Scenario.cfg0 Scenario.w_up Scenario.w_up "m1" false false false
           0 20043 ∅ 42 Scenario.pick_home H1 H2 H3).
Defined.

(** ** Texts: URL encoding, slashes, lists of identifiers *)

Section Encoding.

Lemma hex_digits_safe (a : ascii) :
  Str.uri_unreserved (Str.hex_digit (nat_of_ascii a / 16)) = true
  ∧ Str.uri_unreserved (Str.hex_digit (nat_of_ascii a mod 16)) = true.
Proof. destruct a as [[] [] [] [] [] [] [] []]; by vm_compute. Qed.

Lemma hex_digits_value (a : ascii) :
  ascii_of_nat (16 * hex_value (Str.hex_digit (nat_of_ascii a / 16))
                + hex_value (Str.hex_digit (nat_of_ascii a mod 16))) = a.
Proof. destruct a as [[] [] [] [] [] [] [] []]; by vm_compute. Qed.

Lemma unreserved_not_percent (a : ascii) :
  Str.uri_unreserved a = true → Ascii.eqb a "%" = false.
Proof. destruct a as [[] [] [] [] [] [] [] []]; by vm_compute. Qed.

Lemma encode_cons (a : ascii) (r : string) :
  Str.encodeURIComponent (String a r)
  = if Str.uri_unreserved a then String a (Str.encodeURIComponent r)
    else String "%" (String (Str.hex_digit (nat_of_ascii a / 16))
           (String (Str.hex_digit (nat_of_ascii a mod 16)) (Str.encodeURIComponent r))).
Proof. reflexivity. Qed.

Lemma encode_app (a b : string) :
  Str.encodeURIComponent (a +:+ b)
  = Str.encodeURIComponent a +:+ Str.encodeURIComponent b.
Proof.
  induction a as [|x a IH]; [done|].
  change (String x a +:+ b) with (String x (a +:+ b)). rewrite !encode_cons, IH.
  by destruct (Str.uri_unreserved x).
Qed.

Lemma encode_safe (s : string) :
  Forall (λ a, uri_safe a = true) (chars (Str.encodeURIComponent s)).
Proof.
  unfold chars, uri_safe. induction s as [|x s IH]; [constructor|].
  rewrite encode_cons. destruct (Str.uri_unreserved x) eqn:Hx.
  - constructor; [by rewrite Hx | done].
  - destruct (hex_digits_safe x) as [H1 H2].
    constructor; [done|]. constructor; [by rewrite H1|]. constructor; [by rewrite H2|done].
Qed.

Lemma decode_encode (s : string) :
  percent_decode (Str.encodeURIComponent s) = s.
Proof.
  induction s as [|x s IH]; [done|].
  rewrite encode_cons. destruct (Str.uri_unreserved x) eqn:Hx.
  - cbn [percent_decode]. rewrite (unreserved_not_percent _ Hx). by rewrite IH.
  - cbn [percent_decode]. change (Ascii.eqb "%" "%") with true. cbv iota.
    by rewrite hex_digits_value, IH.
Qed.

(** What [encodeURIComponent] puts into the address: only unreserved
    characters and percent signs, so never a slash, a question mark, a
    hash, an ampersand, an equals sign, a colon or a space; the encoding
    of a concatenation is the concatenation of the encodings. *)
Lemma encodeURIComponent_alphabet (s1 s2 : string) :
  Forall (λ a, uri_safe a = true) (chars (Str.encodeURIComponent s1))
  ∧ Forall (λ a, uri_safe a = false) (chars "/?#&=: ")
  ∧ Str.encodeURIComponent (s1 +:+ s2)
    = Str.encodeURIComponent s1 +:+ Str.encodeURIComponent s2.
Proof.
  split; [apply encode_safe|]. split; [|apply encode_app].
  by repeat constructor.
Qed.

(** The encoding loses nothing: reading the [%XX] groups back as bytes
    gives the text that was encoded, so two different texts never have
    the same encoding. *)
Lemma encodeURIComponent_round_trip (s1 s2 : string) :
  percent_decode (Str.encodeURIComponent s1) = s1
  ∧ (Str.encodeURIComponent s1 = Str.encodeURIComponent s2 → s1 = s2).
Proof.
  split; [apply decode_encode|].
  intros H. by rewrite <- (decode_encode s1), <- (decode_encode s2), H.
Qed.

(** A text made of unreserved characters only, such as the identifiers
    of the default match list, goes into the address as it is. *)
Lemma encodeURIComponent_identity (s : string) :
  forallb Str.uri_unreserved (chars s) = true → Str.encodeURIComponent s = s.
Proof.
  unfold chars. induction s as [|x s IH]; [done|].
  cbn [list_ascii_of_string forallb]. intros [Hx Hs]%andb_true_iff.
  rewrite encode_cons, Hx. by rewrite IH.
Qed.

End Encoding.

Section Addresses.

Lemma append_empty_r (a : string) : a +:+ "" = a.
Proof.
  induction a as [|x a IH]; [done|].
  change (String x a +:+ "") with (String x (a +:+ "")). by rewrite IH.
Qed.

Lemma strip_slash_added (u : string) : Str.strip_trailing_slash (u +:+ "/") = u.
Proof.
  induction u as [|x u IH]; [done|].
  change (String x u +:+ "/") with (String x (u +:+ "/")).
  cbn [Str.strip_trailing_slash]. rewrite IH.
  by destruct u.
Qed.

Lemma chars_elem_app (a b : string) (x : ascii) :
  x ∈ chars (a +:+ b) ↔ x ∈ chars a ∨ x ∈ chars b.
Proof. unfold chars. rewrite chars_app. apply elem_of_app. Qed.

(** One slash at the end of [PREDICTOR_URL] makes no difference to the
    address that is built: the slash that was added is the one that is
    removed, and a base that does not end in a slash gives the same
    address with and without it. *)
Theorem build_url_trailing_slash (u key secret : string) (ids : list string)
    (matchId : string) (detail : bool) :
  Str.strip_trailing_slash (u +:+ "/") = u
  ∧ (Str.strip_trailing_slash u = u →
     build_url (Config (u +:+ "/") key ids secret) matchId detail
     = build_url (Config u key ids secret) matchId detail).
Proof.
  split; [apply strip_slash_added|].
  unfold build_url. simpl. rewrite strip_slash_added. by intros ->.
Qed.

End Addresses.

Lemma build_url_trailing_slash_witness :
  Str.strip_trailing_slash "http://p:5000" = "http://p:5000"
  ∧ build_url (Config ("http://p:5000" +:+ "/") "" ["m1"] "s") "m 1" true
    = build_url (Config "http://p:5000" "" ["m1"] "s") "m 1" true.
Proof.
  assert (H : Str.strip_trailing_slash "http://p:5000" = "http://p:5000") by reflexivity.
  split; [exact H|].
  exact (proj2 (build_url_trailing_slash "http://p:5000" "" "s" ["m1"] "m 1" true) H).
Defined.

Section Lists.

Lemma split_cons (sep a : ascii) (r : string) :
  Str.split sep (String a r)
  = if Ascii.eqb a sep then EmptyString :: Str.split sep r
    else match Str.split sep r with
         | h :: t => String a h :: t
         | [] => [String a EmptyString]
         end.
Proof. reflexivity. Qed.

Lemma split_not_nil (sep : ascii) (s : string) : Str.split sep s ≠ [].
Proof.
  induction s as [|a r IH]; [done|]. rewrite split_cons.
  destruct (Ascii.eqb a sep); [done|]. by destruct (Str.split sep r).
Qed.

Lemma join_cons_char (sep : string) (a : ascii) (h : string) (t : list string) :
  array_join sep (String a h :: t) = String a (array_join sep (h :: t)).
Proof. by destruct t. Qed.

Lemma join_split (sep : ascii) (s : string) :
  array_join (String sep EmptyString) (Str.split sep s) = s.
Proof.
  induction s as [|a r IH]; [done|]. rewrite split_cons.
  destruct (Ascii.eqb_spec a sep) as [->|Hne].
  - pose proof (split_not_nil sep r) as Hnil.
    destruct (Str.split sep r) as [|h t] eqn:Hs; [done|].
    change (array_join (String sep EmptyString) (EmptyString :: h :: t))
      with (String sep (array_join (String sep EmptyString) (h :: t))).
    by rewrite IH.
  - pose proof (split_not_nil sep r) as Hnil.
    destruct (Str.split sep r) as [|h t] eqn:Hs; [done|].
    by rewrite join_cons_char, IH.
Qed.

Lemma split_pieces (sep : ascii) (s : string) :
  Forall (λ piece, sep ∉ chars piece) (Str.split sep s).
Proof.
  unfold chars. induction s as [|a r IH]; [repeat constructor; by intros ?%elem_of_nil|].
  rewrite split_cons. destruct (Ascii.eqb_spec a sep) as [->|Hne].
  - constructor; [by intros ?%elem_of_nil | done].
  - destruct (Str.split sep r) as [|h t].
    + constructor; [|constructor]. simpl. intros [?|?%elem_of_nil]%elem_of_cons; done.
    + inversion IH as [|? ? Hh Ht]; subst. constructor; [|done].
      simpl. intros [?|?]%elem_of_cons; done.
Qed.

Lemma split_free (sep : ascii) (x : string) :
  sep ∉ chars x → Str.split sep x = [x].
Proof.
  unfold chars. induction x as [|a x IH]; [done|]. intros Hx.
  change (list_ascii_of_string (String a x)) with (a :: list_ascii_of_string x) in Hx.
  rewrite split_cons. destruct (Ascii.eqb_spec a sep) as [->|Hne].
  - exfalso. apply Hx. by left.
  - rewrite IH; [done|]. intros ?. apply Hx. by right.
Qed.

Lemma split_free_then (sep : ascii) (x rest : string) :
  sep ∉ chars x →
  Str.split sep (x +:+ String sep rest) = x :: Str.split sep rest.
Proof.
  unfold chars. induction x as [|a x IH]; intros Hx.
  - change (EmptyString +:+ String sep rest) with (String sep rest).
    by rewrite split_cons, Ascii.eqb_refl.
  - change (list_ascii_of_string (String a x)) with (a :: list_ascii_of_string x) in Hx.
    change (String a x +:+ String sep rest) with (String a (x +:+ String sep rest)).
    rewrite split_cons. destruct (Ascii.eqb_spec a sep) as [->|Hne].
    + exfalso. apply Hx. by left.
    + rewrite IH; [done|]. intros ?. apply Hx. by right.
Qed.

Lemma split_join (sep : ascii) (l : list string) :
  l ≠ [] → Forall (λ piece, sep ∉ chars piece) l →
  Str.split sep (array_join (String sep EmptyString) l) = l.
Proof.
  intros Hnil Hl. induction Hl as [|x l Hx Hl IH]; [done|]. clear Hnil.
  destruct l as [|y l]; [by apply split_free|].
  change (array_join (String sep EmptyString) (x :: y :: l))
    with (x +:+ String sep (array_join (String sep EmptyString) (y :: l))).
  rewrite (split_free_then _ _ _ Hx). by rewrite IH.
Qed.

(** Splitting at a separator and joining with it undo each other: the
    pieces of a text joined again give the text; the pieces never contain
    the separator and there is always at least one; and a non-empty list
    of texts without the separator is recovered from its join. *)
Lemma split_join_round_trip (sep : ascii) (s : string) (l : list string) :
  array_join (String sep EmptyString) (Str.split sep s) = s
  ∧ Str.split sep s ≠ []
  ∧ Forall (λ piece, sep ∉ chars piece) (Str.split sep s)
  ∧ (l ≠ [] → Forall (λ piece, sep ∉ chars piece) l →
     Str.split sep (array_join (String sep EmptyString) l) = l).
Proof.
  split; [apply join_split|]. split; [apply split_not_nil|].
  split; [apply split_pieces|]. apply split_join.
Qed.

(** The configured match list is never empty, whatever the environment:
    an unset or empty [PREDICTOR_MATCH_IDS] gives the two default
    identifiers, and any other value gives its comma-separated pieces,
    none of which contains a comma. *)
Theorem match_ids_of_env (env : gmap string string) :
  PREDICTOR_MATCH_IDS (config_of_env env) ≠ []
  ∧ Forall (λ id, ","%char ∉ chars id) (PREDICTOR_MATCH_IDS (config_of_env env))
  ∧ (env !! "PREDICTOR_MATCH_IDS" = None ∨ env !! "PREDICTOR_MATCH_IDS" = Some "" →
     PREDICTOR_MATCH_IDS (config_of_env env) = ["m_20251115_001"; "m_20251115_002"])
  ∧ (∀ v, env !! "PREDICTOR_MATCH_IDS" = Some v → v ≠ "" →
     array_join "," (PREDICTOR_MATCH_IDS (config_of_env env)) = v).
Proof.
  unfold config_of_env. simpl. split; [apply split_not_nil|].
  split; [apply split_pieces|]. split.
  - by intros [-> | ->].
  - intros v -> Hv. simpl. destruct (String.eqb_spec v ""); [done|]. apply join_split.
Qed.

End Lists.

Lemma match_ids_of_env_witness :
  ({[ "PREDICTOR_MATCH_IDS" := "m1,m2" ]} : gmap string string) !! "PREDICTOR_MATCH_IDS"
  = Some "m1,m2"
  ∧ "m1,m2" ≠ ""
  ∧ array_join "," (PREDICTOR_MATCH_IDS Scenario.cfg12) = "m1,m2".
Proof.
  assert (H1 : ({[ "PREDICTOR_MATCH_IDS" := "m1,m2" ]} : gmap string string)
               !! "PREDICTOR_MATCH_IDS" = Some "m1,m2") by reflexivity.
  assert (H2 : "m1,m2" ≠ "") by discriminate.
  split; [exact H1|]. split; [exact H2|].
  exact (proj2 (proj2 (proj2
    (match_ids_of_env {[ "PREDICTOR_MATCH_IDS" := "m1,m2" ]}))) "m1,m2" H1 H2).
Defined.

(** ** Credential verifier, continued *)

Section Scheme.

Lemma toLowerCase_length (s : string) :
  String.length (Str.toLowerCase s) = String.length s.
Proof. induction s as [|a s IH]; simpl; [done | by rewrite IH]. Qed.

Lemma string_length_app (a b : string) :
  String.length (a +:+ b) = (String.length a + String.length b)%nat.
Proof.
  induction a as [|x a IH]; [done|].
  change (String x a +:+ b) with (String x (a +:+ b)). simpl. by rewrite IH.
Qed.

Lemma take_drop (n : nat) (s : string) : Str.take n s +:+ Str.drop n s = s.
Proof.
  revert s. induction n as [|n IH]; intros [|a s]; try done.
  change (Str.take (S n) (String a s) +:+ Str.drop (S n) (String a s))
    with (String a (Str.take n s +:+ Str.drop n s)).
  by rewrite IH.
Qed.

Lemma spaces_span (s : string) :
  ∃ ws, all_space ws = true ∧ s = ws +:+ Str.drop_spaces s
        ∧ Str.drop_spaces (Str.drop_spaces s) = Str.drop_spaces s.
Proof.
  induction s as [|a s (ws & Hws & Hs & Hd)]; [by exists EmptyString|].
  cbn [Str.drop_spaces]. destruct (Str.is_space a) eqn:Ha.
  - exists (String a ws). split; [simpl; by rewrite Ha|]. split; [|done].
    change (String a ws +:+ Str.drop_spaces s) with (String a (ws +:+ Str.drop_spaces s)).
    by rewrite <- Hs.
  - exists EmptyString. split; [done|]. split; [done|].
    cbn [Str.drop_spaces]. by rewrite Ha.
Qed.

Lemma drop_spaces_app (ws rest : string) :
  all_space ws = true → Str.drop_spaces (ws +:+ rest) = Str.drop_spaces rest.
Proof.
  intros Hws. induction ws as [|a ws IH]; [done|]. simpl in Hws.
  apply andb_true_iff in Hws as [Ha Hws].
  change (String a ws +:+ rest) with (String a (ws +:+ rest)).
  cbn [Str.drop_spaces]. rewrite Ha. by apply IH.
Qed.

(** What [verifyJWT] removes from a header value (a text of code points
    below 256, where white space is tab to carriage return, space and
    U+00A0) is exactly the scheme word, in any case, together with the
    whole run of white space after it. Whenever the value changes at all it had that shape, and the
    rest is passed on untouched; a scheme word that is not followed by
    white space is not removed. *)
Theorem strip_bearer_shape (s : string) :
  (∀ p ws rest, is_bearer_ci p → ws ≠ "" → all_space ws = true →
     Str.strip_bearer (p +:+ ws +:+ rest) = Str.drop_spaces rest)
  ∧ (Str.strip_bearer s ≠ s →
     ∃ p ws, is_bearer_ci p ∧ ws ≠ "" ∧ all_space ws = true
             ∧ s = p +:+ ws +:+ Str.strip_bearer s
             ∧ Str.drop_spaces (Str.strip_bearer s) = Str.strip_bearer s)
  ∧ (∀ p rest, is_bearer_ci p → Str.drop_spaces rest = rest →
     Str.strip_bearer (p +:+ rest) = p +:+ rest).
Proof.
  split; [|split].
  - intros p ws rest [Hlen Hlow] Hne Hws. unfold Str.strip_bearer.
    rewrite (take_app_length _ _ _ Hlen), (drop_app_length _ _ _ Hlen), Hlow.
    rewrite String.eqb_refl.
    destruct ws as [|a ws]; [done|]. simpl in Hws.
    apply andb_true_iff in Hws as [Ha Hws].
    change (String a ws +:+ rest) with (String a (ws +:+ rest)). cbv iota beta.
    rewrite Ha. by apply drop_spaces_app.
  - unfold Str.strip_bearer.
    destruct (String.eqb_spec (Str.toLowerCase (Str.take 6 s)) "bearer") as [Hlow|]; [|done].
    destruct (Str.drop 6 s) as [|a r] eqn:Hdrop; [done|].
    destruct (Str.is_space a) eqn:Ha; [|done]. intros _.
    destruct (spaces_span r) as (ws & Hws & Hr & Hd).
    exists (Str.take 6 s), (String a ws). split; [|split; [done|split; [|split]]].
    + split; [|done]. rewrite <- (toLowerCase_length (Str.take 6 s)), Hlow. done.
    + simpl. by rewrite Ha.
    + change (String a ws +:+ Str.drop_spaces r) with (String a (ws +:+ Str.drop_spaces r)).
      rewrite <- Hr, <- Hdrop. by rewrite take_drop.
    + done.
  - intros p rest [Hlen Hlow] Hrest. unfold Str.strip_bearer.
    rewrite (take_app_length _ _ _ Hlen), (drop_app_length _ _ _ Hlen), Hlow.
    rewrite String.eqb_refl.
    destruct rest as [|a r]; [done|]. cbn [Str.drop_spaces] in Hrest.
    destruct (Str.is_space a); [|done].
    exfalso. destruct (spaces_span r) as (ws & _ & Hr & _).
    apply (f_equal String.length) in Hrest. apply (f_equal String.length) in Hr.
    rewrite string_length_app in Hr. simpl in Hrest. lia.
Qed.

End Scheme.

Lemma strip_bearer_shape_witness :
  is_bearer_ci "BEARER" ∧ "  " ≠ "" ∧ all_space "  " = true
  ∧ Str.strip_bearer ("BEARER" +:+ "  " +:+ " abc def") = Str.drop_spaces " abc def".
Proof.
  assert (H1 : is_bearer_ci "BEARER") by (split; reflexivity).
  assert (H2 : "  " ≠ "") by discriminate.
  assert (H3 : all_space "  " = true) by reflexivity.
  split; [exact H1|]. split; [exact H2|]. split; [exact H3|].
  exact (proj1 (strip_bearer_shape "") "BEARER" "  " " abc def" H1 H2 H3).
Defined.

Lemma falsy_payload_not_served_witness :
  truthy (getCache (cacheKey "m1" false) 0 ∅).1 = false
  ∧ upstream_success
      (net Scenario2.w_null 0 (build_request Scenario.cfg0 "m1" false false)) 42 JNull
  ∧ truthy JNull = false
  ∧ f_sent (fetchPredictorMatch Scenario.cfg0 Scenario2.w_null "m1" false false 100
              (f_cache (fetchPredictorMatch Scenario.cfg0 Scenario2.w_null "m1" false false 0 ∅)))
    = [build_request Scenario.cfg0 "m1" false false].
Proof.
  assert (H1 : truthy (getCache (cacheKey "m1" false) 0 ∅).1 = false) by reflexivity.
  assert (H2 : upstream_success
                 (net Scenario2.w_null 0 (build_request Scenario.cfg0 "m1" false false))
                 42 JNull).
  { exists 40, 200, 2. repeat split. }
  assert (H3 : truthy JNull = false) by reflexivity.
  split; [exact H1|]. split; [exact H2|]. split; [exact H3|].
  exact (proj2 (proj2
    (falsy_payload_not_served Scenario.cfg0 Scenario2.w_null Scenario2.w_null
       "m1" false false false 0 100 ∅ 42 JNull H1 H2 H3))).
Defined.

Lemma head_phase_bounded_witness :
  truthy (getCache (cacheKey "m1" false) 0 ∅).1 = false
  ∧ (∀ d status b,
       net Scenario2.w_503 0 (build_request Scenario.cfg0 "m1" false false) = Head d status b →
       d < TIMEOUT_MS → resp_ok status = false)
  ∧ ∃ t, f_value (fetchPredictorMatch Scenario.cfg0 Scenario2.w_503 "m1" false false 0 ∅)
         = At t JNull ∧ t ≤ 0 + TIMEOUT_MS.
Proof.
  assert (H1 : truthy (getCache (cacheKey "m1" false) 0 ∅).1 = false) by reflexivity.
  assert (H2 : ∀ d status b,
             net Scenario2.w_503 0 (build_request Scenario.cfg0 "m1" false false)
             = Head d status b → d < TIMEOUT_MS → resp_ok status = false).
  { intros d status b [= <- <- <-] _. reflexivity. }
  split; [exact H1|]. split; [exact H2|].
  exact (head_phase_bounded Scenario.cfg0 Scenario2.w_503 "m1" false false 0 ∅ H1 H2).
Defined.

(** ** Single-match handler, continued *)

Section SingleMatchMore.
Context (cfg : config) (w : world).
Implicit Types (matchId : string) (q auth : option string) (now : Z)
  (c : gmap string entry).

Lemma fetch_value_cases matchId detail fwd now c :
  f_value (fetchPredictorMatch cfg w matchId detail fwd now c) = Never
  ∨ ∃ t v, f_value (fetchPredictorMatch cfg w matchId detail fwd now c) = At t v.
Proof. destruct (f_value _); eauto. Qed.

Lemma handle_prediction_cases matchId q auth now c :
  handle_prediction cfg w matchId q auth now c = Reply (At now UNAUTHORIZED) c []
    ∧ detail_flag q = true
  ∨ handle_prediction cfg w matchId q auth now c = Reply (At now TEASER) c []
    ∧ detail_flag q = true
  ∨ ∃ fwd, handle_prediction cfg w matchId q auth now c
           = respond_with (fetchPredictorMatch cfg w matchId (detail_flag q) fwd now c)
           ∧ (fwd = true →
              detail_flag q = true
              ∧ truthy (verifyJWT w cfg (str_or auth "")) = true
              ∧ truthy_opt (prop (verifyJWT w cfg (str_or auth "")) "subscribed") = true).
Proof.
  unfold handle_prediction. destruct (detail_flag q) eqn:Hd.
  - destruct (truthy (verifyJWT w cfg (str_or auth ""))) eqn:Hp; simpl; [|by left].
    destruct (truthy_opt (prop (verifyJWT w cfg (str_or auth "")) "subscribed")) eqn:Hs;
      simpl; [|right; by left].
    right; right. by exists true.
  - right; right. exists false. split; [done|]. discriminate.
Qed.

(** The terminal states of a request, for a well-formed
    [PREDICTOR_URL]: a response that is sent is the 401, the 403, the
    502, the 500, or a 200 whose body is a truthy payload (never
    [null]). The 401 and the 403 are sent at once, only when [detail] is
    a text equal to ["true"] up to case, and the 500 at once, only when
    [detail] is truthy and not a text; in these three cases the cache
    and the upstream are not touched. At most one request goes out. *)
Theorem prediction_terminal_states matchId (q : option json) auth now c :
  (∀ t resp, r_response (prediction_route cfg w matchId q auth now c) = At t resp →
     resp = UNAUTHORIZED ∨ resp = TEASER ∨ resp = UNAVAILABLE ∨ resp = SERVER_ERROR
     ∨ ∃ payload, resp = Response 200 payload ∧ truthy payload = true)
  ∧ (∀ t, r_response (prediction_route cfg w matchId q auth now c) = At t UNAUTHORIZED
          ∨ r_response (prediction_route cfg w matchId q auth now c) = At t TEASER →
     (∃ text, detail_text q = Some text ∧ detail_flag text = true) ∧ t = now
     ∧ prediction_route cfg w matchId q auth now c
       = Reply (r_response (prediction_route cfg w matchId q auth now c)) c [])
  ∧ (∀ t, r_response (prediction_route cfg w matchId q auth now c) = At t SERVER_ERROR →
     detail_text q = None ∧ t = now
     ∧ prediction_route cfg w matchId q auth now c = Reply (At now SERVER_ERROR) c [])
  ∧ (detail_text q = None →
     prediction_route cfg w matchId q auth now c = Reply (At now SERVER_ERROR) c [])
  ∧ (length (r_sent (prediction_route cfg w matchId q auth now c)) ≤ 1)%nat.
Proof.
  unfold prediction_route. destruct (detail_text q) as [text|] eqn:Hq.
  2:{ split; [|split; [|split; [|split; [done | simpl; lia]]]].
      - intros t resp [= <- <-]. by do 3 right; left.
      - intros t [[=] | [=]].
      - by intros t [= <-]. }
  destruct (handle_prediction_cases matchId text auth now c)
    as [[-> Hd] | [[-> Hd] | (fwd & -> & _)]].
  - split; [|split; [|split; [|split; [done | simpl; lia]]]].
    + intros t resp [= <- <-]. by left.
    + intros t [[= <-] | [= <-]]; split; eauto.
    + intros t [=].
  - split; [|split; [|split; [|split; [done | simpl; lia]]]].
    + intros t resp [= <- <-]. right. by left.
    + intros t [[=] | [= <-]]; split; eauto.
    + intros t [=].
  - unfold respond_with. simpl. split; [|split; [|split; [|split; [done|]]]].
    + intros t resp. destruct (f_value _) as [t' v|]; [|done].
      destruct (truthy v) eqn:Hv; simpl; intros [= <- <-].
      * do 4 right. by exists v.
      * right; right. by left.
    + intros t. destruct (f_value _) as [t' v|]; [|by intros [|]].
      destruct (truthy v); simpl; intros [[=] | [=]].
    + intros t. destruct (f_value _) as [t' v|]; [|done].
      destruct (truthy v); simpl; intros [=].
    + rewrite fetch_sent. destruct (truthy (getCache _ _ _).1); simpl; lia.
Qed.

(** When the upstream call fails, or succeeds with a falsy payload, the
    response is the 502; this holds for the summary and, behind the
    gate, for the detail view alike. *)
Theorem prediction_unavailable matchId q auth now c fwd :
  handle_prediction cfg w matchId q auth now c
  = respond_with (fetchPredictorMatch cfg w matchId (detail_flag q) fwd now c) →
  truthy (getCache (cacheKey matchId (detail_flag q)) now c).1 = false →
  (upstream_failure (net w now (build_request cfg matchId (detail_flag q) fwd)) →
   ∃ t, r_response (handle_prediction cfg w matchId q auth now c) = At t UNAVAILABLE)
  ∧ (∀ d j, upstream_success (net w now (build_request cfg matchId (detail_flag q) fwd)) d j →
            truthy j = false →
            r_response (handle_prediction cfg w matchId q auth now c)
            = At (now + d) UNAVAILABLE)
  ∧ status UNAVAILABLE = 502.
Proof.
  intros -> Hmiss. unfold respond_with. simpl. split; [|split; [|done]].
  - intros Hfail. rewrite (fetch_miss _ _ _ _ _ _ _ Hmiss). simpl.
    destruct (try_block_failure _ Hfail) as [d [[e ->] | ->]]; simpl; eauto.
  - intros d j Hok Hj. rewrite (fetch_success _ _ _ _ _ _ _ _ _ Hmiss Hok). simpl.
    by rewrite Hj.
Qed.

(** The privileged key leaves the server only behind the gate: a request
    of this handler that carries [x-api-key] was made for [detail=true]
    with a credential that verified and whose [subscribed] claim is
    truthy, and the header holds the configured, non-empty key. *)
Theorem api_key_only_behind_gate matchId q auth now c req k :
  req ∈ r_sent (handle_prediction cfg w matchId q auth now c) →
  headers req !! "x-api-key" = Some k →
  detail_flag q = true
  ∧ truthy (verifyJWT w cfg (str_or auth "")) = true
  ∧ truthy_opt (prop (verifyJWT w cfg (str_or auth "")) "subscribed") = true
  ∧ k = PREDICTOR_API_KEY cfg ∧ k ≠ "".
Proof.
  destruct (handle_prediction_cases matchId q auth now c)
    as [[-> Hd] | [[-> Hd] | (fwd & -> & Hfwd)]]; simpl;
    [by intros ?%elem_of_nil | by intros ?%elem_of_nil |].
  rewrite fetch_sent. destruct (truthy (getCache _ _ _).1); [by intros ?%elem_of_nil|].
  intros ->%list_elem_of_singleton. simpl. rewrite build_headers_key.
  destruct fwd; simpl; [|discriminate].
  destruct (String.eqb_spec (PREDICTOR_API_KEY cfg) "") as [|Hk]; simpl; [discriminate|].
  intros [= <-]. destruct (Hfwd eq_refl) as (? & ? & ?). done.
Qed.

(** The store keeps its shape across a request: when every entry has the
    20-second lifetime and the key of some query before the request, so
    it has afterwards. *)
Lemma handle_prediction_wf matchId q auth now c :
  cache_wf c → cache_wf (r_cache (handle_prediction cfg w matchId q auth now c)).
Proof.
  intros Hwf.
  destruct (handle_prediction_cases matchId q auth now c)
    as [[-> Hd] | [[-> Hd] | (fwd & -> & _)]]; simpl; try done.
  by apply fetch_wf.
Qed.

End SingleMatchMore.

Lemma prediction_terminal_states_witness :
  detail_text (Some (JArr [JStr "true"; JStr "true"])) = None
  ∧ prediction_route Scenario.cfg0 Scenario.w_up "m1"
      (Some (JArr [JStr "true"; JStr "true"])) None 0 ∅
    = Reply (At 0 SERVER_ERROR) ∅ [].
Proof.
  assert (H : detail_text (Some (JArr [JStr "true"; JStr "true"])) = None) by reflexivity.
  split; [exact H|].
  exact (proj1 (proj2 (proj2 (proj2
    (prediction_terminal_states Scenario.cfg0 Scenario.w_up "m1"
       (Some (JArr [JStr "true"; JStr "true"])) None 0 ∅)))) H).
Defined.

Lemma prediction_unavailable_witness :
  handle_prediction Scenario.cfg0 Scenario.w_down "m1" None None 0 ∅
  = respond_with (fetchPredictorMatch Scenario.cfg0 Scenario.w_down "m1"
                    (detail_flag None) false 0 ∅)
  ∧ truthy (getCache (cacheKey "m1" (detail_flag None)) 0 ∅).1 = false
  ∧ upstream_failure
      (net Scenario.w_down 0 (build_request Scenario.cfg0 "m1" (detail_flag None) false))
  ∧ ∃ t, r_response (handle_prediction Scenario.cfg0 Scenario.w_down "m1" None None 0 ∅)
         = At t UNAVAILABLE.
Proof.
  assert (H1 : handle_prediction Scenario.cfg0 Scenario.w_down "m1" None None 0 ∅
               = respond_with (fetchPredictorMatch Scenario.cfg0 Scenario.w_down "m1"
                                 (detail_flag None) false 0 ∅)) by reflexivity.
  assert (H2 : truthy (getCache (cacheKey "m1" (detail_flag None)) 0 ∅).1 = false)
    by reflexivity.
  assert (H3 : upstream_failure
                 (net Scenario.w_down 0
                    (build_request Scenario.cfg0 "m1" (detail_flag None) false)))
    by apply failure_transport.
  split; [exact H1|]. split; [exact H2|]. split; [exact H3|].
  exact (proj1 (prediction_unavailable Scenario.cfg0 Scenario.w_down "m1" None None 0 ∅
                  false H1 H2) H3).
Defined.

Lemma api_key_only_behind_gate_witness :
  build_request Scenario.cfg_key "m1" true true
    ∈ r_sent (handle_prediction Scenario.cfg_key Scenario.w_up "m1" (Some "true")
                (Some "Bearer vip") 0 ∅)
  ∧ headers (build_request Scenario.cfg_key "m1" true true) !! "x-api-key" = Some "k3y"
  ∧ detail_flag (Some "true") = true.
Proof.
  assert (H1 : build_request Scenario.cfg_key "m1" true true
               ∈ r_sent (handle_prediction Scenario.cfg_key Scenario.w_up "m1" (Some "true")
                           (Some "Bearer vip") 0 ∅)) by apply list_elem_of_here.
  assert (H2 : headers (build_request Scenario.cfg_key "m1" true true) !! "x-api-key"
               = Some "k3y") by reflexivity.
  split; [exact H1|]. split; [exact H2|].
  exact (proj1 (api_key_only_behind_gate Scenario.cfg_key Scenario.w_up "m1" (Some "true")
                  (Some "Bearer vip") 0 ∅ _ _ H1 H2)).
Defined.

(** ** Aggregating handler, continued *)

Section AggregatorMore.
Context (cfg : config) (w : world).
Implicit Types (ids : list string) (now : Z) (c : gmap string entry).

Lemma start_all_cons id ids now c :
  start_all cfg (id :: ids) now c
  = ((fetch_start cfg id false false now c).1
       :: (start_all cfg ids now (fetch_start cfg id false false now c).2).1,
     (start_all cfg ids now (fetch_start cfg id false false now c).2).2).
Proof.
  simpl. destruct (fetch_start cfg id false false now c) as [cl c1]. simpl.
  by destruct (start_all cfg ids now c1).
Qed.

Lemma fetch_start_warm id now c :
  warm id false now c →
  fetch_start cfg id false false now c = (Hit (getCache (cacheKey id false) now c).1, c).
Proof.
  intros (e & Hk & He & Hv). unfold fetch_start.
  rewrite (getCache_fresh _ _ _ _ Hk He). by rewrite Hv.
Qed.

Lemma fetch_start_cold id now c :
  c !! cacheKey id false = None →
  fetch_start cfg id false false now c
  = (Miss (cacheKey id false) (build_request cfg id false false), c).
Proof. intros Hk. unfold fetch_start. by rewrite (getCache_absent _ _ _ Hk). Qed.

Lemma start_all_warm ids now c :
  Forall (λ id, warm id false now c) ids →
  start_all cfg ids now c
  = (map (λ id, Hit (getCache (cacheKey id false) now c).1) ids, c).
Proof.
  induction 1 as [|id ids Hid _ IH]; [done|].
  rewrite start_all_cons, (fetch_start_warm _ _ _ Hid). simpl. by rewrite IH.
Qed.

Lemma start_all_cold ids now c :
  Forall (λ id, c !! cacheKey id false = None) ids →
  start_all cfg ids now c
  = (map (λ id, Miss (cacheKey id false) (build_request cfg id false false)) ids, c).
Proof.
  induction 1 as [|id ids Hid _ IH]; [done|].
  rewrite start_all_cons, (fetch_start_cold _ _ _ Hid). simpl. by rewrite IH.
Qed.

Lemma insert_by_time_Forall (P : settled → Prop) s l :
  P s → Forall P l → Forall P (insert_by_time s l).
Proof.
  intros Hs. induction 1 as [|x l Hx Hl IH]; simpl; [by repeat constructor|].
  destruct (s_at s <=? s_at x); repeat constructor; done.
Qed.

Lemma by_time_Forall (P : settled → Prop) l : Forall P l → Forall P (by_time l).
Proof.
  induction 1 as [|x l Hx Hl IH]; simpl; [constructor|].
  by apply insert_by_time_Forall.
Qed.

Lemma commit_all_nothing l c :
  Forall (λ s, s_write s = None) l → commit_all l c = c.
Proof.
  unfold commit_all. intros Hl. revert c.
  induction Hl as [|s l Hs Hl IH]; intros c; simpl; [done|].
  unfold commit at 2. rewrite Hs. apply IH.
Qed.

Lemma handle_predictions_sent now c :
  r_sent (handle_predictions cfg w now c)
  = concat (map sent_by (start_all cfg (PREDICTOR_MATCH_IDS cfg) now c).1).
Proof.
  unfold handle_predictions.
  destruct (start_all cfg (PREDICTOR_MATCH_IDS cfg) now c) as [calls c1]. simpl.
  destruct (mapM id (map (fetch_settle w now) calls)); [|done].
  by destruct (length _ =? 0)%nat.
Qed.

Lemma start_all_requests ids now c req :
  req ∈ concat (map sent_by (start_all cfg ids now c).1) →
  ∃ id, id ∈ ids ∧ req = build_request cfg id false false.
Proof.
  revert c. induction ids as [|id ids IH]; intros c; [by intros ?%elem_of_nil|].
  rewrite start_all_cons. simpl. intros [Hin|Hin]%elem_of_app.
  - unfold fetch_start in Hin.
    destruct (getCache (cacheKey id false) now c) as [cached c1].
    destruct (truthy cached); simpl in Hin; [by apply elem_of_nil in Hin|].
    apply list_elem_of_singleton in Hin as ->. exists id. split; [by left|done].
  - destruct (IH _ Hin) as (id' & Hid' & ->). exists id'. split; [by right|done].
Qed.

(** The public list is fetched without privileges: every request that
    the aggregating handler sends is the summary request of one of the
    configured matches, with [Accept: application/json] and without the
    [x-api-key] header, whatever key is configured; and at most one
    request is sent per configured match. *)
Theorem aggregator_requests now c :
  Forall (λ req,
      (∃ id, id ∈ PREDICTOR_MATCH_IDS cfg ∧ req = build_request cfg id false false)
      ∧ headers req !! "x-api-key" = None
      ∧ headers req !! "Accept" = Some "application/json")
    (r_sent (handle_predictions cfg w now c))
  ∧ (length (r_sent (handle_predictions cfg w now c))
     ≤ length (PREDICTOR_MATCH_IDS cfg))%nat.
Proof.
  rewrite handle_predictions_sent. split.
  - apply Forall_forall. intros req Hin.
    destruct (start_all_requests _ _ _ _ Hin) as (id & Hid & ->).
    split; [by exists id|]. done.
  - generalize (PREDICTOR_MATCH_IDS cfg) as ids. intros ids. revert c.
    induction ids as [|id ids IH]; intros c; [done|].
    rewrite start_all_cons. simpl. rewrite length_app.
    specialize (IH (fetch_start cfg id false false now c).2).
    assert (length (sent_by (fetch_start cfg id false false now c).1) ≤ 1)%nat.
    { unfold fetch_start. destruct (getCache _ _ _) as [cached c1].
      destruct (truthy cached); simpl; lia. }
    lia.
Qed.

(** A warm cache answers the whole list: when every configured match
    has a fresh, truthy summary in the cache, the handler responds at
    once with these summaries in the configured order, sends nothing to
    the upstream and leaves the cache as it is. *)
Theorem aggregator_warm_cache now c :
  PREDICTOR_MATCH_IDS cfg ≠ [] →
  Forall (λ id, warm id false now c) (PREDICTOR_MATCH_IDS cfg) →
  handle_predictions cfg w now c
  = Reply
      (At now (Response 200
         (JArr (map (λ id, (getCache (cacheKey id false) now c).1)
                  (PREDICTOR_MATCH_IDS cfg)))))
      c [].
Proof.
  intros Hne Hwarm. unfold handle_predictions.
  rewrite (start_all_warm _ _ _ Hwarm). cbv beta iota zeta.
  set (ids := PREDICTOR_MATCH_IDS cfg) in *.
  assert (Houts : map (fetch_settle w now) (map (λ id, Hit (getCache (cacheKey id false) now c).1) ids)
                  = map (λ id, Some (Settled now (getCache (cacheKey id false) now c).1 None)) ids).
  { rewrite map_map. done. }
  rewrite Houts.
  assert (Hall : mapM id (map (λ id0, Some (Settled now (getCache (cacheKey id0 false) now c).1 None)) ids)
                 = Some (map (λ id0, Settled now (getCache (cacheKey id0 false) now c).1 None) ids)).
  { apply mapM_Some. clear. induction ids; constructor; done. }
  rewrite Hall.
  assert (Homap : omap id (map (λ id0, Some (Settled now (getCache (cacheKey id0 false) now c).1 None)) ids)
                  = map (λ id0, Settled now (getCache (cacheKey id0 false) now c).1 None) ids).
  { clear. induction ids as [|i ids IH]; [done|]. simpl. by f_equal. }
  rewrite Homap.
  rewrite commit_all_nothing.
  2:{ apply by_time_Forall. clear. induction ids; constructor; done. }
  assert (Hsent : concat (map sent_by (map (λ id0, Hit (getCache (cacheKey id0 false) now c).1) ids)) = []).
  { clear. induction ids as [|i ids IH]; [done|]. simpl. done. }
  rewrite Hsent.
  assert (Ht : foldr Z.max now (map s_at (map (λ id0, Settled now (getCache (cacheKey id0 false) now c).1 None) ids)) = now).
  { clear. induction ids as [|i ids IH]; [done|]. simpl. rewrite IH. lia. }
  rewrite Ht.
  assert (Hclean : List.filter not_null
                     (map s_value (map (λ id0, Settled now (getCache (cacheKey id0 false) now c).1 None) ids))
                   = map (λ id0, (getCache (cacheKey id0 false) now c).1) ids).
  { rewrite map_map. simpl. clear Houts Hall Homap Hsent Ht Hne.
    induction Hwarm as [|i ids (e & Hk & He & Hv) _ IH]; [done|]. simpl.
    assert (Hnn : not_null (getCache (cacheKey i false) now c).1 = true).
    { rewrite (getCache_fresh _ _ _ _ Hk He). simpl.
      by destruct (value e). }
    by rewrite Hnn, IH. }
  rewrite Hclean.
  destruct ids as [|i ids]; [done|]. done.
Qed.

Lemma try_block_head_failure ev :
  (∀ d status b, ev = Head d status b → d < TIMEOUT_MS → resp_ok status = false) →
  ∃ d, d ≤ TIMEOUT_MS
       ∧ ((∃ e, try_block ev = At d (inl e)) ∨ try_block ev = At d (inr None)).
Proof.
  intros Hhead. unfold try_block. destruct ev as [d | d status b | ]; simpl.
  - destruct (d <? TIMEOUT_MS) eqn:Hd; simpl; eexists; (split; [|eauto]);
      [apply Z.ltb_lt in Hd|]; lia.
  - destruct (d <? TIMEOUT_MS) eqn:Hd; simpl.
    + apply Z.ltb_lt in Hd. rewrite (Hhead d status b eq_refl Hd). simpl.
      eexists; split; [|eauto]. lia.
    + eexists; split; [|eauto]. lia.
  - eexists; split; [|eauto]. lia.
Qed.

(** With nothing cached and an upstream that fails every configured
    match before a success head arrives, the handler answers with status
    200 and the two-entry fallback, no later than 5000 ms after the
    request, and stores nothing. *)
Theorem aggregator_all_down now c :
  Forall (λ id, c !! cacheKey id false = None) (PREDICTOR_MATCH_IDS cfg) →
  Forall (λ id, ∀ d status b,
            net w now (build_request cfg id false false) = Head d status b →
            d < TIMEOUT_MS → resp_ok status = false)
    (PREDICTOR_MATCH_IDS cfg) →
  ∃ t, now ≤ t ≤ now + TIMEOUT_MS
       ∧ handle_predictions cfg w now c
         = Reply (At t (Response 200 (fallback (toISOString w t)))) c
             (map (λ id, build_request cfg id false false) (PREDICTOR_MATCH_IDS cfg)).
Proof.
  intros Hcold Hdown. unfold handle_predictions.
  rewrite (start_all_cold _ _ _ Hcold). cbv beta iota zeta.
  set (ids := PREDICTOR_MATCH_IDS cfg) in *.
  set (calls := map (λ id, Miss (cacheKey id false) (build_request cfg id false false)) ids).
  assert (Hres : ∃ results,
             map (fetch_settle w now) calls = map Some results
             ∧ Forall (λ s, s_value s = JNull ∧ s_write s = None
                            ∧ s_at s ≤ now + TIMEOUT_MS) results).
  { subst calls. clear Hcold. induction Hdown as [|i ids Hi _ (results & Hr & Hf)].
    - by exists [].
    - destruct (try_block_head_failure _ Hi) as (d & Hd & Ht).
      exists (Settled (now + d) JNull None :: results). split.
      + simpl. rewrite Hr. f_equal.
        destruct Ht as [[e ->] | ->]; done.
      + constructor; [|done]. simpl. repeat split; lia. }
  destruct Hres as (results & Hr & Hf). rewrite Hr.
  assert (Hall : mapM id (map Some results) = Some results).
  { apply mapM_Some. clear. induction results; constructor; done. }
  assert (Homap : omap id (map Some results) = results).
  { clear. induction results as [|r results IH]; [done|]. simpl. by f_equal. }
  rewrite Hall, Homap.
  rewrite commit_all_nothing.
  2:{ apply by_time_Forall. eapply Forall_impl; [exact Hf|]. by intros s (_ & ? & _). }
  assert (Hclean : List.filter not_null (map s_value results) = []).
  { clear Hr Hall Homap. induction Hf as [|s results (Hv & _ & _) _ IH]; [done|].
    simpl. rewrite Hv. done. }
  rewrite Hclean. simpl.
  assert (Hsent : concat (map sent_by calls)
                  = map (λ id, build_request cfg id false false) ids).
  { subst calls. clear. induction ids as [|i ids IH]; [done|]. simpl. by rewrite IH. }
  rewrite Hsent.
  exists (foldr Z.max now (map s_at results)). split; [|done].
  clear Hr Hall Homap Hclean Hsent.
  induction Hf as [|s results (_ & _ & Hs) _ IH]; simpl; [unfold TIMEOUT_MS; lia|]. lia.
Qed.

(** One body that never completes blocks the whole list: with nothing
    cached, when one configured match is answered by a success head in
    time and a body that never ends, no response is ever sent, whatever
    the other matches do. *)
Theorem aggregator_blocked now c (stuck : string) (d status : Z) :
  Forall (λ id, c !! cacheKey id false = None) (PREDICTOR_MATCH_IDS cfg) →
  stuck ∈ PREDICTOR_MATCH_IDS cfg →
  net w now (build_request cfg stuck false false) = Head d status BodyStalled →
  d < TIMEOUT_MS → resp_ok status = true →
  r_response (handle_predictions cfg w now c) = Never.
Proof.
  intros Hcold Hin Hev Hd Hok. apply aggregator_pending.
  rewrite (start_all_cold _ _ _ Hcold). simpl.
  destruct (mapM id _) as [results|] eqn:Hall; [|done]. exfalso.
  apply mapM_Some in Hall. revert results Hall.
  induction (PREDICTOR_MATCH_IDS cfg) as [|i ids IH]; intros results Hall;
    [by apply elem_of_nil in Hin|].
  simpl in Hall. inversion Hall as [|? r ? rs Hi Hrest]; subst.
  apply elem_of_cons in Hin as [<-|Hin].
  - simpl in Hi. rewrite Hev in Hi. unfold try_block in Hi. simpl in Hi.
    apply Z.ltb_lt in Hd. rewrite Hd, Hok in Hi. simpl in Hi. discriminate.
  - inversion Hcold; subst. by apply (IH ltac:(done) Hin rs).
Qed.

End AggregatorMore.

Lemma aggregator_drops_failures_witness :
  mapM id (map (fetch_settle Scenario.w_m1 0)
             (start_all Scenario.cfg12 (PREDICTOR_MATCH_IDS Scenario.cfg12) 0 ∅).1)
  = Some [Settled 42 Scenario.pick_home (Some (cacheKey "m1" false, Scenario.pick_home));
          Settled 5000 JNull None]
  ∧ ∃ t, r_response (handle_predictions Scenario.cfg12 Scenario.w_m1 0 ∅)
         = At t (Response 200 (JArr [Scenario.pick_home])).
Proof.
  assert (H : mapM id (map (fetch_settle Scenario.w_m1 0)
                         (start_all Scenario.cfg12 (PREDICTOR_MATCH_IDS Scenario.cfg12) 0 ∅).1)
              = Some [Settled 42 Scenario.pick_home
                        (Some (cacheKey "m1" false, Scenario.pick_home));
                      Settled 5000 JNull None]) by reflexivity.
  split; [exact H|].
  exact (proj2 (proj2
    (aggregator_drops_failures Scenario.cfg12 Scenario.w_m1 0 ∅ _ H))).
Defined.

Lemma aggregator_warm_cache_witness :
  PREDICTOR_MATCH_IDS Scenario.cfg12 ≠ []
  ∧ Forall (λ id, warm id false 5000 Scenario2.both_cached)
      (PREDICTOR_MATCH_IDS Scenario.cfg12)
  ∧ handle_predictions Scenario.cfg12 Scenario.w_down 5000 Scenario2.both_cached
    = Reply
        (At 5000 (Response 200
           (JArr (map (λ id, (getCache (cacheKey id false) 5000 Scenario2.both_cached).1)
                    (PREDICTOR_MATCH_IDS Scenario.cfg12)))))
        Scenario2.both_cached [].
Proof.
  assert (H1 : PREDICTOR_MATCH_IDS Scenario.cfg12 ≠ []) by discriminate.
  assert (H2 : Forall (λ id, warm id false 5000 Scenario2.both_cached)
                 (PREDICTOR_MATCH_IDS Scenario.cfg12)).
  { repeat constructor.
    - exists (Entry 0 20 (JStr "one")). repeat split.
    - exists (Entry 0 20 (JStr "two")). repeat split. }
  split; [exact H1|]. split; [exact H2|].
  exact (aggregator_warm_cache Scenario.cfg12 Scenario.w_down 5000 Scenario2.both_cached H1 H2).
Defined.

Lemma aggregator_all_down_witness :
  Forall (λ id, (∅ : gmap string entry) !! cacheKey id false = None)
    (PREDICTOR_MATCH_IDS Scenario.cfg12)
  ∧ Forall (λ id, ∀ d status b,
              net Scenario.w_down 0 (build_request Scenario.cfg12 id false false)
              = Head d status b →
              d < TIMEOUT_MS → resp_ok status = false)
      (PREDICTOR_MATCH_IDS Scenario.cfg12)
  ∧ ∃ t, 0 ≤ t ≤ 0 + TIMEOUT_MS
         ∧ handle_predictions Scenario.cfg12 Scenario.w_down 0 ∅
           = Reply (At t (Response 200 (fallback (toISOString Scenario.w_down t)))) ∅
               (map (λ id, build_request Scenario.cfg12 id false false)
                  (PREDICTOR_MATCH_IDS Scenario.cfg12)).
Proof.
  assert (H1 : Forall (λ id, (∅ : gmap string entry) !! cacheKey id false = None)
                 (PREDICTOR_MATCH_IDS Scenario.cfg12)) by (by repeat constructor).
  assert (H2 : Forall (λ id, ∀ d status b,
                         net Scenario.w_down 0 (build_request Scenario.cfg12 id false false)
                         = Head d status b →
                         d < TIMEOUT_MS → resp_ok status = false)
                 (PREDICTOR_MATCH_IDS Scenario.cfg12)).
  { repeat constructor; intros d status b; discriminate. }
  split; [exact H1|]. split; [exact H2|].
  exact (aggregator_all_down Scenario.cfg12 Scenario.w_down 0 ∅ H1 H2).
Defined.

Lemma aggregator_blocked_witness :
  Forall (λ id, (∅ : gmap string entry) !! cacheKey id false = None)
    (PREDICTOR_MATCH_IDS Scenario.cfg12)
  ∧ "m2" ∈ PREDICTOR_MATCH_IDS Scenario.cfg12
  ∧ net Scenario.w_stall 0 (build_request Scenario.cfg12 "m2" false false)
    = Head 10 200 BodyStalled
  ∧ 10 < TIMEOUT_MS ∧ resp_ok 200 = true
  ∧ r_response (handle_predictions Scenario.cfg12 Scenario.w_stall 0 ∅) = Never.
Proof.
  assert (H1 : Forall (λ id, (∅ : gmap string entry) !! cacheKey id false = None)
                 (PREDICTOR_MATCH_IDS Scenario.cfg12)) by (by repeat constructor).
  assert (H2 : "m2" ∈ PREDICTOR_MATCH_IDS Scenario.cfg12)
    by (apply list_elem_of_further, list_elem_of_here).
  assert (H3 : net Scenario.w_stall 0 (build_request Scenario.cfg12 "m2" false false)
               = Head 10 200 BodyStalled) by reflexivity.
  assert (H4 : 10 < TIMEOUT_MS) by (unfold TIMEOUT_MS; lia).
  assert (H5 : resp_ok 200 = true) by reflexivity.
  split; [exact H1|]. split; [exact H2|]. split; [exact H3|].
  split; [exact H4|]. split; [exact H5|].
  exact (aggregator_blocked Scenario.cfg12 Scenario.w_stall 0 ∅ "m2" 10 200 H1 H2 H3 H4 H5).
Defined.

(** ** The application as a whole *)

Section Application.
Context (cfg : config) (w : world).
Implicit Types (now : Z) (c : gmap string entry).

Lemma start_all_wf ids now c :
  cache_wf c → cache_wf (start_all cfg ids now c).2.
Proof.
  revert c. induction ids as [|i ids IH]; intros c Hwf; [done|].
  rewrite start_all_cons. simpl. apply IH.
  unfold fetch_start. pose proof (getCache_wf (cacheKey i false) now c Hwf) as H.
  destruct (getCache (cacheKey i false) now c) as [cached c1].
  by destruct (truthy cached).
Qed.

Lemma start_all_writes ids now c :
  Forall write_ok (omap id (map (fetch_settle w now) (start_all cfg ids now c).1)).
Proof.
  revert c. induction ids as [|i ids IH]; intros c; [constructor|].
  rewrite start_all_cons. simpl.
  destruct (fetch_settle w now (fetch_start cfg i false false now c).1) as [s|] eqn:Hs;
    simpl; [|apply IH].
  constructor; [|apply IH].
  unfold fetch_start in Hs. destruct (getCache (cacheKey i false) now c) as [cached c1].
  destruct (truthy cached); simpl in Hs.
  - injection Hs as <-. by intros k j.
  - destruct (try_block _) as [d [e|[j'|]]|]; simplify_eq; intros k j; simpl; try done.
    intros [= <- <-]. by eexists _, _.
Qed.

Lemma commit_all_wf l c :
  Forall write_ok l → cache_wf c → cache_wf (commit_all l c).
Proof.
  unfold commit_all. intros Hl. revert c.
  induction Hl as [|s l Hs Hl IH]; intros c Hwf; simpl; [done|].
  apply IH. unfold commit. destruct (s_write s) as [[k j]|] eqn:Hw; [|done].
  destruct (Hs k j Hw) as (m & d & ->). by apply setCache_wf.
Qed.

Lemma handle_predictions_wf now c :
  cache_wf c → cache_wf (r_cache (handle_predictions cfg w now c)).
Proof.
  intros Hwf. unfold handle_predictions.
  pose proof (start_all_wf (PREDICTOR_MATCH_IDS cfg) now c Hwf) as Hc1.
  pose proof (start_all_writes (PREDICTOR_MATCH_IDS cfg) now c) as Hw.
  destruct (start_all cfg (PREDICTOR_MATCH_IDS cfg) now c) as [calls c1]. simpl in *.
  assert (cache_wf (commit_all (by_time (omap id (map (fetch_settle w now) calls))) c1))
    by (by apply commit_all_wf; [apply by_time_Forall|]).
  destruct (mapM id (map (fetch_settle w now) calls)); [|done].
  by destruct (length _ =? 0)%nat.
Qed.

(** The store keeps its shape whatever is served: starting from a store
    (the empty one, for instance) in which every entry has the 20-second
    lifetime under the key of some query, every request leaves such a
    store behind. No handler stores an entry with another lifetime or
    under another kind of key. *)
Theorem serve_keeps_cache_shape (req : http_get) now c (r : reply) :
  cache_wf c → serve cfg w req now c = Some r → cache_wf (r_cache r).
Proof.
  intros Hwf. unfold serve.
  destruct (dispatch routes (path req)) as [[[ | | ] params]|]; try discriminate.
  - by intros [= <-].
  - intros [= <-]. by apply handle_predictions_wf.
  - destruct params as [|matchId [|? ?]]; try discriminate.
    intros [= <-]. by apply handle_prediction_wf.
Qed.

Lemma dispatch_cases (p : list string) :
  dispatch routes p = Some (SamplePredictions, [])
  ∨ (∃ matchId, matchId ≠ "" ∧ dispatch routes p = Some (SinglePrediction, [matchId]))
  ∨ dispatch routes p = None.
Proof.
  unfold routes, dispatch.
  destruct p as [|a [|b [|m [|e [|? ?]]]]]; cbn [match_path];
    repeat (match goal with
            | |- context [String.eqb ?x ?y] =>
                let H := fresh "H" in destruct (String.eqb_spec x y) as [H|H]
            end; cbn [fmap option_fmap option_map]);
    try (by left); try (by right; right); try discriminate.
  all: right; left; by exists m.
Qed.

Lemma dispatch_param (p : list string) (m : string) :
  dispatch routes p = Some (SinglePrediction, [m]) →
  forallb plain_segment p = true → plain_segment m = true.
Proof.
  unfold routes, dispatch.
  destruct p as [|a [|b [|m' [|e [|? ?]]]]]; cbn [match_path];
    repeat (match goal with
            | |- context [String.eqb ?x ?y] =>
                let H := fresh "H" in destruct (String.eqb_spec x y) as [H|H]
            end; cbn [fmap option_fmap option_map]);
    try discriminate.
  all: intros [= <-]; cbn [forallb]; rewrite !andb_true_iff; tauto.
Qed.

(** The routes of the application, on paths without percent escapes:
    [/api/prediction/<id>] runs the single-match handler on that
    identifier, for every identifier that is not empty and whatever the
    case of the two fixed segments; with an empty identifier no route
    matches; no path at all reaches the aggregating handler, because the
    sample handler is registered before it for the same path; and what
    is served is answered by the sample handler or by the single-match
    handler on a non-empty identifier. *)
Theorem routes_served (req : http_get) now c :
  (∀ a b matchId, path req = [a; b; matchId] →
     Str.toLowerCase a = "api" → Str.toLowerCase b = "prediction" →
     matchId ≠ "" → plain_segment matchId = true →
     serve cfg w req now c
     = Some (handle_prediction cfg w matchId (query_detail req) (authorization req) now c))
  ∧ (path req = ["api"; "prediction"; ""] → serve cfg w req now c = None)
  ∧ (∀ p params, dispatch routes p ≠ Some (AggregatedPredictions, params))
  ∧ (forallb plain_segment (path req) = true →
     ∀ r, serve cfg w req now c = Some r →
       r ≠ handle_sample w now c →
       ∃ matchId, matchId ≠ "" ∧ plain_segment matchId = true
         ∧ r = handle_prediction cfg w matchId (query_detail req) (authorization req) now c).
Proof.
  split; [|split; [|split]].
  - intros a b matchId Hp Ha Hb Hm _. unfold serve, routes, dispatch. rewrite Hp.
    cbn [match_path]. rewrite Ha, Hb. cbn.
    by destruct (String.eqb_spec matchId "").
  - intros Hp. unfold serve. by rewrite Hp.
  - intros p params.
    destruct (dispatch_cases p) as [-> | [(m & _ & ->) | ->]]; discriminate.
  - intros Hplain r. unfold serve.
    destruct (dispatch_cases (path req)) as [-> | [(m & Hm & Hd) | ->]].
    + by intros [= <-].
    + rewrite Hd. intros [= <-] _. exists m. split; [done|]. split; [|done].
      apply (dispatch_param (path req) m Hd Hplain).
    + discriminate.
Qed.

End Application.

Lemma serve_keeps_cache_shape_witness :
  cache_wf ∅
  ∧ serve Scenario.cfg0 Scenario.w_up (HttpGet ["api"; "prediction"; "m1"] None None) 0 ∅
    = Some (handle_prediction Scenario.cfg0 Scenario.w_up "m1" None None 0 ∅)
  ∧ cache_wf (r_cache (handle_prediction Scenario.cfg0 Scenario.w_up "m1" None None 0 ∅)).
Proof.
  assert (H1 : cache_wf ∅) by (intros k e H; by rewrite lookup_empty in H).
  assert (H2 : serve Scenario.cfg0 Scenario.w_up
                 (HttpGet ["api"; "prediction"; "m1"] None None) 0 ∅
               = Some (handle_prediction Scenario.cfg0 Scenario.w_up "m1" None None 0 ∅))
    by reflexivity.
  split; [exact H1|]. split; [exact H2|].
  exact (serve_keeps_cache_shape Scenario.cfg0 Scenario.w_up _ 0 ∅ _ H1 H2).
Defined.

Lemma routes_served_witness :
  path (HttpGet ["API"; "Prediction"; "m-1"] (Some "true") None)
  = ["API"; "Prediction"; "m-1"]
  ∧ Str.toLowerCase "API" = "api" ∧ Str.toLowerCase "Prediction" = "prediction"
  ∧ "m-1" ≠ "" ∧ plain_segment "m-1" = true
  ∧ serve Scenario.cfg0 Scenario.w_up
      (HttpGet ["API"; "Prediction"; "m-1"] (Some "true") None) 0 ∅
    = Some (handle_prediction Scenario.cfg0 Scenario.w_up "m-1" (Some "true") None 0 ∅).
Proof.
  assert (H1 : path (HttpGet ["API"; "Prediction"; "m-1"] (Some "true") None)
               = ["API"; "Prediction"; "m-1"]) by reflexivity.
  assert (H2 : Str.toLowerCase "API" = "api") by reflexivity.
  assert (H3 : Str.toLowerCase "Prediction" = "prediction") by reflexivity.
  assert (H4 : "m-1" ≠ "") by discriminate.
  assert (H5 : plain_segment "m-1" = true) by reflexivity.
  split; [exact H1|]. split; [exact H2|]. split; [exact H3|]. split; [exact H4|].
  split; [exact H5|].
  exact (proj1
    (routes_served Scenario.cfg0 Scenario.w_up
       (HttpGet ["API"; "Prediction"; "m-1"] (Some "true") None) 0 ∅)
    "API" "Prediction" "m-1" H1 H2 H3 H4 H5).
Defined.

(** ** PayFast checkout *)

Section PayFast.
Implicit Types (dataObj : list (string * string)) (env : gmap string string).

Lemma get_field_lookup k dataObj :
  get_field k dataObj = (list_to_map dataObj : gmap string string) !! k.
Proof.
  induction dataObj as [|[k' v] l IH]; [done|]. simpl.
  destruct (String.eqb_spec k k') as [->|Hne].
  - by rewrite lookup_insert_eq.
  - by rewrite lookup_insert_ne.
Qed.

Lemma sorted_keys_perm dataObj1 dataObj2 :
  dataObj1 ≡ₚ dataObj2 →
  merge_sort String.le (map fst dataObj1) = merge_sort String.le (map fst dataObj2).
Proof.
  intros Hp. apply (Sorted_unique String.le).
  - apply (Sorted_merge_sort String.le).
  - apply (Sorted_merge_sort String.le).
  - rewrite !merge_sort_Permutation. by apply fmap_Permutation.
Qed.

(** The signature does not depend on the order in which the properties
    of the object were written: two objects with the same properties
    (distinct names) have the same signature. *)
Theorem signature_order_independent dataObj1 dataObj2 :
  NoDup (map fst dataObj1) → dataObj1 ≡ₚ dataObj2 →
  createPayfastSignature dataObj1 = createPayfastSignature dataObj2.
Proof.
  intros Hnd Hp. unfold createPayfastSignature.
  rewrite (sorted_keys_perm _ _ Hp). f_equal. apply map_ext. intros k.
  rewrite !get_field_lookup. by rewrite (list_to_map_proper _ _ Hnd Hp).
Qed.

Lemma ampersand_not_safe : uri_safe "&" = false.
Proof. reflexivity. Qed.

Lemma field_no_ampersand (k v : string) :
  "&"%char ∉ chars k → "&"%char ∉ chars (k +:+ "=" +:+ Str.encodeURIComponent v).
Proof.
  intros Hk [Hin | [Hin | Hin]%chars_elem_app]%chars_elem_app; [done| |].
  - vm_compute in Hin. by repeat (inversion_clear Hin as [|? ? ? Hin']; rename Hin' into Hin).
  - pose proof (encode_safe v) as Hs. rewrite Forall_forall in Hs.
    specialize (Hs _ Hin). by rewrite ampersand_not_safe in Hs.
Qed.

Lemma signature_split dataObj :
  dataObj ≠ [] → Forall (λ kv, "&"%char ∉ chars kv.1) dataObj →
  Str.split "&" (createPayfastSignature dataObj)
  = map (λ k, k +:+ "=" +:+
                Str.encodeURIComponent (default "undefined" (get_field k dataObj)))
      (merge_sort String.le (map fst dataObj)).
Proof.
  intros Hne Hkeys.
  pose proof (merge_sort_Permutation String.le (map fst dataObj)) as Hperm.
  unfold createPayfastSignature. apply split_join.
  - intros Hnil. apply (f_equal length) in Hnil. rewrite length_map in Hnil.
    rewrite Hperm, length_map in Hnil. by destruct dataObj.
  - apply Forall_forall. intros field (k & -> & Hk)%list_elem_of_fmap.
    apply field_no_ampersand. rewrite Hperm in Hk.
    apply list_elem_of_fmap in Hk as ([k' v] & -> & Hkv).
    rewrite Forall_forall in Hkeys. by apply (Hkeys _ Hkv).
Qed.

(** The signature has one [name=value] field per property, in the sorted
    order of the names: for an object with at least one property, whose
    names are made of ASCII characters other than the ampersand and
    whose values are well-formed texts, cutting the signature at the
    ampersands gives back exactly these fields. An object without
    properties has the empty signature. *)
Theorem signature_fields dataObj :
  dataObj ≠ [] →
  Forall (λ kv, ascii_text kv.1 = true ∧ ("&"%char ∉ chars kv.1)
                ∧ well_formed_text kv.2 = true) dataObj →
  ∃ keys, Sorted String.le keys ∧ keys ≡ₚ map fst dataObj
          ∧ Str.split "&" (createPayfastSignature dataObj)
            = map (λ k, k +:+ "=" +:+
                          Str.encodeURIComponent (default "undefined" (get_field k dataObj)))
                keys
          ∧ length (Str.split "&" (createPayfastSignature dataObj)) = length dataObj
          ∧ createPayfastSignature [] = "".
Proof.
  intros Hne Hnames.
  assert (Hkeys : Forall (λ kv : string * string, "&"%char ∉ chars kv.1) dataObj)
    by (eapply Forall_impl; [exact Hnames|]; by intros kv (_ & ? & _)).
  exists (merge_sort String.le (map fst dataObj)).
  pose proof (merge_sort_Permutation String.le (map fst dataObj)) as Hperm.
  split; [apply (Sorted_merge_sort String.le)|]. split; [done|].
  split; [by apply signature_split|]. split; [|done].
  rewrite (signature_split _ Hne Hkeys), length_map, Hperm. by rewrite length_map.
Qed.

Lemma string_of_Z_inj (a b : Z) : string_of_Z a = string_of_Z b → a = b.
Proof.
  unfold string_of_Z. intros H. apply DecimalZ.to_int_inj.
  apply (f_equal DecimalString.NilEmpty.int_of_string) in H.
  rewrite !DecimalString.NilEmpty.isi in H. congruence.
Qed.

(** The payment identifier depends on the clock alone: two checkouts get
    the same [m_payment_id] exactly when they are made in the same
    millisecond, whoever pays and whatever the plan. *)
Theorem payment_id_by_time env1 env2 now1 now2 id1 key1 email1 plan1 id2 key2 email2 plan2 :
  get_field "m_payment_id" (payfast_data env1 now1 id1 key1 email1 plan1)
  = get_field "m_payment_id" (payfast_data env2 now2 id2 key2 email2 plan2)
  ↔ now1 = now2.
Proof.
  simpl. split; [|by intros ->].
  intros [= H]. by apply string_of_Z_inj.
Qed.

End PayFast.

Lemma signature_order_independent_witness :
  NoDup (map fst [("b", "2"); ("a", "1 &")])
  ∧ [("b", "2"); ("a", "1 &")] ≡ₚ [("a", "1 &"); ("b", "2")]
  ∧ createPayfastSignature [("b", "2"); ("a", "1 &")]
    = createPayfastSignature [("a", "1 &"); ("b", "2")].
Proof.
  assert (H1 : NoDup (map fst [("b", "2"); ("a", "1 &")])).
  { apply NoDup_cons_2; [|apply NoDup_singleton].
    intros H%list_elem_of_singleton. discriminate H. }
  assert (H2 : [("b", "2"); ("a", "1 &")] ≡ₚ [("a", "1 &"); ("b", "2")])
    by apply Permutation_swap.
  split; [exact H1|]. split; [exact H2|].
  exact (signature_order_independent _ _ H1 H2).
Defined.

Lemma signature_fields_witness :
  [("b", "2"); ("a", "1 &")] ≠ []
  ∧ Forall (λ kv : string * string,
              ascii_text kv.1 = true ∧ ("&"%char ∉ chars kv.1)
              ∧ well_formed_text kv.2 = true)
      [("b", "2"); ("a", "1 &")]
  ∧ ∃ keys, Sorted String.le keys ∧ keys ≡ₚ map fst [("b", "2"); ("a", "1 &")]
            ∧ Str.split "&" (createPayfastSignature [("b", "2"); ("a", "1 &")])
              = map (λ k, k +:+ "=" +:+
                            Str.encodeURIComponent
                              (default "undefined" (get_field k [("b", "2"); ("a", "1 &")])))
                  keys
            ∧ length (Str.split "&" (createPayfastSignature [("b", "2"); ("a", "1 &")]))
              = length [("b", "2"); ("a", "1 &")]
            ∧ createPayfastSignature [] = "".
Proof.
  assert (H1 : [("b", "2"); ("a", "1 &")] ≠ []) by discriminate.
  assert (H2 : Forall (λ kv : string * string,
                         ascii_text kv.1 = true ∧ ("&"%char ∉ chars kv.1)
                         ∧ well_formed_text kv.2 = true)
                 [("b", "2"); ("a", "1 &")]).
  { repeat constructor; simpl; intros H; vm_compute in H;
      by repeat (inversion_clear H as [|? ? ? H']; rename H' into H). }
  split; [exact H1|]. split; [exact H2|].
  exact (signature_fields _ H1 H2).
Defined.

(** ** Configuration *)

(** A setting that is present but empty counts as unset: the
    configuration is the one of the environment without it, so the
    defaults apply (the local upstream address, no privileged key, the
    two default matches, the development secret). *)
Theorem empty_setting_is_unset (env : gmap string string) (name : string) :
  config_of_env (<[name := ""]> env) = config_of_env (delete name env)
  ∧ config_of_env ∅
    = Config "http://localhost:5000" "" ["m_20251115_001"; "m_20251115_002"] "dev-secret".
Proof.
  split; [|reflexivity].
  assert (H : ∀ k d, str_or (<[name := ""]> env !! k) d = str_or (delete name env !! k) d).
  { intros k d. destruct (decide (name = k)) as [->|Hne].
    - by rewrite lookup_insert_eq, lookup_delete_eq.
    - by rewrite lookup_insert_ne, lookup_delete_ne. }
  unfold config_of_env. by rewrite !H.
Qed.
